(** * Verification of the content pipeline of the Twitter content automator

    A shallow embedding of the Python sources
    [content_generator.py], [twitter_client.py], [database.py] and
    [scheduler.py], followed by theorems about them.

    Conventions.
    - A Python [str] is a list of Unicode code points, so that [len] is
      [length] and slicing is [firstn]/[skipn].
    - Timestamps are integers (seconds); a calendar date is the day number
      of a timestamp.  SQL [NULL] is [None].
    - A table is the list of its rows in rowid order.
    - The generative model, the platform API and the clock are the only
      external parties; each is an explicit oracle. *)

From Stdlib Require Import String Ascii DecimalString.
From Stdlib Require Import List Bool Arith NArith ZArith Lia.
From Stdlib Require Import Sorted.
Import ListNotations.

Set Implicit Arguments.

(* ================================================================== *)
(** * Python string primitives *)
(* ================================================================== *)

Module Py.

Definition char := N.
Definition str := list char.

(** An ASCII literal of the source, as code points. *)
Definition lit (s : string) : str := map N_of_ascii (list_ascii_of_string s).

Definition NL : char := 10%N.
Definition SLASH : char := 47%N.

(** [str.isspace] on one code point; the same table drives [str.strip],
    [str.split()] and the [\s] class of [re] on [str] patterns. *)
Definition isspace (c : char) : bool :=
  (((9 <=? c) && (c <=? 13)) || ((28 <=? c) && (c <=? 32))
   || (c =? 133) || (c =? 160) || (c =? 5760)
   || ((8192 <=? c) && (c <=? 8202))
   || (c =? 8232) || (c =? 8233) || (c =? 8239) || (c =? 8287)
   || (c =? 12288))%N.

(** The character class [[.!?]]. *)
Definition is_sentence_end (c : char) : bool :=
  ((c =? 46) || (c =? 33) || (c =? 63))%N.

Fixpoint lstrip (s : str) : str :=
  match s with
  | [] => []
  | c :: r => if isspace c then lstrip r else s
  end.

Definition rstrip (s : str) : str := rev (lstrip (rev s)).

(** [s.strip()] *)
Definition strip (s : str) : str := rstrip (lstrip s).

Fixpoint starts_with (p s : str) : bool :=
  match p, s with
  | [], _ => true
  | _ :: _, [] => false
  | a :: p', b :: s' => (a =? b)%N && starts_with p' s'
  end.

(** [sub in s] for strings. *)
Fixpoint contains (sub s : str) : bool :=
  starts_with sub s ||
  match s with
  | [] => false
  | _ :: r => contains sub r
  end.

(** [s.split(sep)] for a non-empty separator: leftmost, non-overlapping
    occurrences.  [skip] counts the separator characters still to drop,
    [cur] is the current piece, reversed. *)
Fixpoint split_go (sep : str) (skip : nat) (cur s : str) : list str :=
  match s with
  | [] => [rev cur]
  | c :: rest =>
      match skip with
      | S k => split_go sep k cur rest
      | O =>
          if starts_with sep s
          then rev cur :: split_go sep (length sep - 1) [] rest
          else split_go sep 0 (c :: cur) rest
      end
  end.

Definition split (sep s : str) : list str := split_go sep 0 [] s.

(** [s.split()]: runs of whitespace separate, empty pieces are dropped. *)
Fixpoint split_ws_go (cur s : str) : list str :=
  match s with
  | [] => match cur with [] => [] | _ => [rev cur] end
  | c :: rest =>
      if isspace c
      then match cur with
           | [] => split_ws_go [] rest
           | _ => rev cur :: split_ws_go [] rest
           end
      else split_ws_go (c :: cur) rest
  end.

Definition split_ws (s : str) : list str := split_ws_go [] s.

(** [sep.join(l)] *)
Fixpoint join (sep : str) (l : list str) : str :=
  match l with
  | [] => []
  | [x] => x
  | x :: r => x ++ sep ++ join sep r
  end.

(** [re.split(r'(?<=[.!?])\s+', s)].  A match starts at the first
    whitespace character that follows one of [.!?] and runs to the end of
    that whitespace run.  [skipping] holds while inside a match,
    [prev_end] records whether the previous character was one of
    [.!?]. *)
Fixpoint re_split_sentences_go (skipping prev_end : bool) (cur s : str)
  : list str :=
  match s with
  | [] => [rev cur]
  | c :: rest =>
      if isspace c then
        if skipping then re_split_sentences_go true false cur rest
        else if prev_end
             then rev cur :: re_split_sentences_go true false [] rest
             else re_split_sentences_go false false (c :: cur) rest
      else re_split_sentences_go false (is_sentence_end c) (c :: cur) rest
  end.

Definition re_split_sentences (s : str) : list str :=
  re_split_sentences_go false false [] s.

(** Look-ahead for [\n\s*\n]: over the whitespace run at the head of
    [s], the number of characters up to and including its last newline,
    if it has one.  [pos] counts the characters seen so far. *)
Fixpoint last_newline_in_run (pos : nat) (best : option nat) (s : str)
  : option nat :=
  match s with
  | [] => best
  | c :: rest =>
      if isspace c
      then last_newline_in_run (S pos)
             (if (c =? NL)%N then Some (S pos) else best) rest
      else best
  end.

(** [re.sub(r'\n\s*\n', '\n\n', s)] *)
Fixpoint collapse_blank_lines_go (skip : nat) (s : str) : str :=
  match s with
  | [] => []
  | c :: rest =>
      match skip with
      | S k => collapse_blank_lines_go k rest
      | O =>
          if (c =? NL)%N then
            match last_newline_in_run 0 None rest with
            | Some k => NL :: NL :: collapse_blank_lines_go k rest
            | None => c :: collapse_blank_lines_go 0 rest
            end
          else c :: collapse_blank_lines_go 0 rest
      end
  end.

Definition collapse_blank_lines (s : str) : str :=
  collapse_blank_lines_go 0 s.

(** [str(n)] for a non-negative integer. *)
Definition str_of_nat (n : nat) : str :=
  lit (NilZero.string_of_uint (Nat.to_uint n)).

End Py.

Import Py.

(* ================================================================== *)
(** * content_generator.py *)
(* ================================================================== *)

Module ContentGenerator.

(** The literal that follows the first tweet of a thread in
    [_clean_and_validate_content]; the source file holds the four code
    points U+00F0 U+0178 U+00A7 U+00B5. *)
Definition thread_suffix_glyph : str := [240; 376; 167; 181]%N.

(** [acc += (" " + piece) if acc else piece] *)
Definition append_piece (acc piece : str) : str :=
  match acc with
  | [] => piece
  | _ => acc ++ lit " " ++ piece
  end.

(** The two [for ... if len(truncated + " " + x) <= 277 ... else: break]
    loops of [_truncate_tweet]. *)
Fixpoint take_fitting (limit : nat) (truncated : str) (pieces : list str)
  : str :=
  match pieces with
  | [] => truncated
  | p :: rest =>
      if length (truncated ++ lit " " ++ p) <=? limit
      then take_fitting limit (append_piece truncated p) rest
      else truncated
  end.

Definition _truncate_tweet (tweet : str) : str :=
  if length tweet <=? 280 then tweet
  else
    match take_fitting 277 [] (re_split_sentences tweet) with
    | (_ :: _) as truncated => truncated ++ lit "..."
    | [] =>
        match take_fitting 277 [] (split_ws tweet) with
        | (_ :: _) as truncated => truncated ++ lit "..."
        | [] => firstn 277 tweet ++ lit "..."
        end
    end.

(** The inner loop of [_split_into_tweets] over the sentences of a long
    paragraph, with the final [if current_tweet: tweets.append(...)]. *)
Fixpoint pack_sentences (current_tweet : str) (sentences : list str)
  : list str :=
  match sentences with
  | [] => match current_tweet with [] => [] | _ => [current_tweet] end
  | sentence :: rest =>
      if length (current_tweet ++ lit " " ++ sentence) <=? 280
      then pack_sentences (append_piece current_tweet sentence) rest
      else match current_tweet with
           | [] => pack_sentences sentence rest
           | _ => current_tweet :: pack_sentences sentence rest
           end
  end.

Definition tweets_of_paragraph (paragraph : str) : list str :=
  let paragraph := strip paragraph in
  match paragraph with
  | [] => []
  | _ =>
      if length paragraph <=? 280 then [paragraph]
      else pack_sentences [] (re_split_sentences paragraph)
  end.

Definition _split_into_tweets (content : str) : list str :=
  flat_map tweets_of_paragraph (split [NL; NL] content).

(** One pass of the validation loop: [None] stands for [continue]. *)
Definition validate_tweet (tweet : str) : option str :=
  let tweet := strip tweet in
  let tweet := if 280 <? length tweet then _truncate_tweet tweet else tweet in
  if length tweet <? 50 then None else Some tweet.

Fixpoint validate_tweets (tweets : list str) : list str :=
  match tweets with
  | [] => []
  | t :: rest =>
      match validate_tweet t with
      | Some t' => t' :: validate_tweets rest
      | None => validate_tweets rest
      end
  end.

(** [for i, tweet in enumerate(validated_tweets, 1)] with [i] starting at
    [i] and [total = len(validated_tweets)]. *)
Fixpoint number_tweets (i total : nat) (validated : list str) : list str :=
  match validated with
  | [] => []
  | tweet :: rest =>
      (if i =? 1
       then tweet ++ lit " " ++ thread_suffix_glyph
       else str_of_nat i ++ lit "/" ++ str_of_nat total ++ lit " " ++ tweet)
      :: number_tweets (S i) total rest
  end.

(** The segments of the value returned by
    [_clean_and_validate_content]: the only validated tweet, or the
    numbered tweets that are joined by a blank line. *)
Definition output_segments (validated_tweets : list str) : list str :=
  match validated_tweets with
  | [t] => [t]
  | _ => number_tweets 1 (length validated_tweets) validated_tweets
  end.

Definition validated_of (content : str) : list str :=
  validate_tweets (_split_into_tweets (collapse_blank_lines (strip content))).

Definition _clean_and_validate_content (content : str) : option str :=
  match content with
  | [] => None
  | _ =>
      match validated_of content with
      | [] => None
      | validated_tweets =>
          Some (join [NL; NL] (output_segments validated_tweets))
      end
  end.

(** What [self.model.generate_content] does: raise, answer without text,
    or answer with text. *)
Inductive model_outcome :=
| ModelRaises
| ModelNoText
| ModelText (text : str).

Definition generate_content (r : model_outcome) : option str :=
  match r with
  | ModelText ((_ :: _) as text) => _clean_and_validate_content text
  | _ => None
  end.

End ContentGenerator.

(* ================================================================== *)
(** * twitter_client.py *)
(* ================================================================== *)

Module TwitterClient.

(** The literal tested by [_is_thread_content]: U+1F9F5. *)
Definition THREAD_EMOJI : str := [129525%N].

Section Classifier.

(** [str.isdigit] on one character: a table of the Unicode database. *)
Variable isdigit : char -> bool.

(** [s[-3:]] *)
Definition last3 (s : str) : str := skipn (length s - 3) s.

Definition is_blank (p : str) : bool :=
  match strip p with [] => true | _ => false end.

(** [[p.strip() for p in content.split('\n\n') if p.strip()]] *)
Definition paragraphs (content : str) : list str :=
  map strip (filter (fun p => negb (is_blank p)) (split [NL; NL] content)).

Definition _is_thread_content (content : str) : bool :=
  if contains [SLASH] content
     && existsb isdigit (last3 (hd [] (split [SLASH] content)))
  then true
  else if 1 <? length (paragraphs content) then true
  else if contains THREAD_EMOJI content then true
  else false.

End Classifier.

Inductive api_error := Forbidden | TooManyRequests | OtherError.

(** What one [self.client.create_tweet] call does. *)
Inductive api_response :=
| Created (id : str)     (* truthy response with data; [str(data['id'])] *)
| NoData                 (* falsy response or response.data *)
| Raises (e : api_error).

Record api_call := {
  call_text : str;
  call_in_reply_to : option str
}.

(** The value of [post_thread], the platform state it leaves, and the
    ordered record of the [create_tweet] calls it made. *)
Record thread_run (api_state : Type) := {
  returned : option (list str);
  api_after : api_state;
  calls : list (api_call * api_response)
}.

Section Platform.

Variable api_state : Type.
Variable create_tweet : api_state -> api_call -> api_response * api_state.

(** Strip, cut to 277 characters plus an ellipsis beyond 280, and skip
    ([None]) under 10 characters. *)
Definition prepare (tweet_content : str) : option str :=
  let tweet_content := strip tweet_content in
  let tweet_content :=
    if 280 <? length tweet_content
    then firstn 277 tweet_content ++ lit "..."
    else tweet_content in
  if length tweet_content <? 10 then None else Some tweet_content.

(** [return tweet_ids if tweet_ids else None]; the normal exit and the
    exception handler agree on it. *)
Definition ids_or_none (tweet_ids : list str) : option (list str) :=
  match tweet_ids with [] => None | _ => Some tweet_ids end.

Fixpoint post_thread_loop (a : api_state) (tweet_ids : list str)
    (previous_tweet_id : option str)
    (log : list (api_call * api_response)) (tweets : list str)
  : thread_run api_state :=
  match tweets with
  | [] => {| returned := ids_or_none tweet_ids; api_after := a; calls := log |}
  | tweet_content :: rest =>
      match prepare tweet_content with
      | None => post_thread_loop a tweet_ids previous_tweet_id log rest
      | Some text =>
          let call :=
            {| call_text := text;
               call_in_reply_to :=
                 match previous_tweet_id with
                 | Some ((_ :: _) as p) => Some p
                 | _ => None
                 end |} in
          let (response, a') := create_tweet a call in
          match response with
          | Created id =>
              post_thread_loop a' (tweet_ids ++ [id]) (Some id)
                (log ++ [(call, response)]) rest
          | NoData | Raises _ =>
              {| returned := ids_or_none tweet_ids;
                 api_after := a';
                 calls := log ++ [(call, response)] |}
          end
      end
  end.

Definition post_thread (a : api_state) (tweets : list str)
  : thread_run api_state :=
  match tweets with
  | [] => {| returned := None; api_after := a; calls := [] |}
  | _ => post_thread_loop a [] None [] tweets
  end.

End Platform.

Definition is_created (c : api_call * api_response) : Prop :=
  exists id, snd c = Created id.

Definition is_failure (c : api_call * api_response) : Prop :=
  snd c = NoData \/ exists e, snd c = Raises e.

(** The identifiers confirmed by a run of calls. *)
Fixpoint confirmed_ids (l : list (api_call * api_response)) : list str :=
  match l with
  | [] => []
  | (_, Created id) :: r => id :: confirmed_ids r
  | _ :: r => confirmed_ids r
  end.

End TwitterClient.

(* ================================================================== *)
(** * database.py *)
(* ================================================================== *)

Module Database.

Definition timestamp := Z.

Definition DAY : Z := 86400.

Record project := {
  p_id : Z;
  name : str;
  website : str;
  twitter_handle : str;
  description : str;
  category : str;
  added_date : timestamp;
  last_posted : option timestamp;
  post_count : Z;
  is_active : bool
}.

Record posted_row := {
  pc_id : Z;
  pc_project_id : Z;
  pc_content : str;
  tweet_id : str;
  posted_date : timestamp;
  engagement_score : Z;
  pc_content_type : str
}.

Record queue_row := {
  cq_id : Z;
  cq_project_id : Z;
  cq_content : str;
  cq_content_type : str;
  scheduled_time : timestamp;
  status : str;
  created_date : timestamp
}.

(** The three tables, and the next AUTOINCREMENT rowid of the two that
    receive inserts. *)
Record store := {
  projects : list project;
  posted_content : list posted_row;
  content_queue : list queue_row;
  next_posted_id : Z;
  next_queue_id : Z
}.

Definition pending : str := lit "pending".

Fixpoint str_eqb (a b : str) : bool :=
  match a, b with
  | [], [] => true
  | x :: a', y :: b' => (x =? y)%N && str_eqb a' b'
  | _, _ => false
  end.

(** [ORDER BY ... ASC NULLS FIRST] on a nullable timestamp. *)
Definition nulls_first_leb (a b : option timestamp) : bool :=
  match a, b with
  | None, _ => true
  | Some _, None => false
  | Some x, Some y => (x <=? y)%Z
  end.

Section OrderBy.
Variable row : Type.
Variable leb : row -> row -> bool.

Fixpoint insert_row (r : row) (sorted : list row) : list row :=
  match sorted with
  | [] => [r]
  | x :: rest => if leb r x then r :: sorted else x :: insert_row r rest
  end.

(** A stable sort: rows that compare equal keep their rowid order. *)
Definition order_by (rows : list row) : list row :=
  fold_right insert_row [] rows.
End OrderBy.

(** [WHERE is_active = 1 AND (last_posted IS NULL OR last_posted < ?)] *)
Definition eligible (cutoff_time : timestamp) (p : project) : bool :=
  is_active p &&
  match last_posted p with
  | None => true
  | Some t => (t <? cutoff_time)%Z
  end.

Definition get_next_project_to_post (now : timestamp) (s : store)
  : option project :=
  let cutoff_time := (now - 1 * DAY)%Z in
  hd_error
    (order_by (fun a b => nulls_first_leb (last_posted a) (last_posted b))
       (filter (eligible cutoff_time) (projects s))).

Definition save_generated_content (now : timestamp) (project_id : Z)
    (content content_type : str) (s : store) : Z * store :=
  let id := next_queue_id s in
  (id,
   {| projects := projects s;
      posted_content := posted_content s;
      content_queue :=
        content_queue s ++
        [{| cq_id := id; cq_project_id := project_id; cq_content := content;
            cq_content_type := content_type; scheduled_time := now;
            status := pending; created_date := now |}];
      next_posted_id := next_posted_id s;
      next_queue_id := (id + 1)%Z |}).

(** [JOIN projects p ON cq.project_id = p.id]: a queue row appears once
    per project row that carries its [project_id]. *)
Definition joined (s : store) (q : queue_row) : list queue_row :=
  map (fun _ => q)
      (filter (fun p => (p_id p =? cq_project_id q)%Z) (projects s)).

Definition get_pending_content (now : timestamp) (s : store)
  : list queue_row :=
  order_by (fun a b => (scheduled_time a <=? scheduled_time b)%Z)
    (filter (fun q => str_eqb (status q) pending
                      && (scheduled_time q <=? now)%Z)
       (flat_map (joined s) (content_queue s))).

(** [UPDATE projects SET last_posted = CURRENT_TIMESTAMP,
    post_count = post_count + 1 WHERE id = ?] *)
Definition bump_project (now : timestamp) (project_id : Z) (p : project)
  : project :=
  if (p_id p =? project_id)%Z then
    {| p_id := p_id p; name := name p; website := website p;
       twitter_handle := twitter_handle p; description := description p;
       category := category p; added_date := added_date p;
       last_posted := Some now;
       post_count := (post_count p + 1)%Z;
       is_active := is_active p |}
  else p.

(** The insert into [posted_content] followed by the project update; the
    shared tail of [mark_content_posted] and of the direct-post route of
    [app.py]. *)
Definition record_post (now : timestamp) (project_id : Z)
    (content tweet content_type : str) (queue : list queue_row) (s : store)
  : store :=
  {| projects := map (bump_project now project_id) (projects s);
     posted_content :=
       posted_content s ++
       [{| pc_id := next_posted_id s; pc_project_id := project_id;
           pc_content := content; tweet_id := tweet; posted_date := now;
           engagement_score := 0; pc_content_type := content_type |}];
     content_queue := queue;
     next_posted_id := (next_posted_id s + 1)%Z;
     next_queue_id := next_queue_id s |}.

Definition mark_content_posted (now : timestamp) (queue_id : Z)
    (tweet : str) (s : store) : store :=
  match find (fun q => (cq_id q =? queue_id)%Z) (content_queue s) with
  | Some queued_content =>
      record_post now (cq_project_id queued_content)
        (cq_content queued_content) tweet (cq_content_type queued_content)
        (filter (fun q => negb (cq_id q =? queue_id)%Z) (content_queue s))
        s
  | None => s
  end.

(** [app.py], [/api/generate]: post at once and record without a queue
    row. *)
Definition record_direct_post (now : timestamp) (project_id : Z)
    (content tweet : str) (s : store) : store :=
  record_post now project_id content tweet (lit "analysis")
    (content_queue s) s.

(** [web_interface.py], [DELETE FROM content_queue WHERE id = ?] *)
Definition delete_queue_item (queue_id : Z) (s : store) : store :=
  {| projects := projects s;
     posted_content := posted_content s;
     content_queue :=
       filter (fun q => negb (cq_id q =? queue_id)%Z) (content_queue s);
     next_posted_id := next_posted_id s;
     next_queue_id := next_queue_id s |}.

(** [scheduler.py], [_daily_reset]:
    [DELETE FROM content_queue WHERE status = 'pending' AND created_date < ?]
    with the cutoff 24 hours back. *)
Definition purge_stale_queue (now : timestamp) (s : store) : store :=
  {| projects := projects s;
     posted_content := posted_content s;
     content_queue :=
       filter (fun q => negb (str_eqb (status q) pending
                              && (created_date q <? now - DAY)%Z))
              (content_queue s);
     next_posted_id := next_posted_id s;
     next_queue_id := next_queue_id s |}.

(** [scheduler.py], [_weekly_maintenance]:
    [DELETE FROM posted_content WHERE posted_date < ?] with the cutoff
    90 days back. *)
Definition purge_old_posted (now : timestamp) (s : store) : store :=
  {| projects := projects s;
     posted_content :=
       filter (fun r => negb (posted_date r <? now - 90 * DAY)%Z)
              (posted_content s);
     content_queue := content_queue s;
     next_posted_id := next_posted_id s;
     next_queue_id := next_queue_id s |}.

(** [scheduler.py], [_update_engagement_scores]:
    [UPDATE posted_content SET engagement_score = ? WHERE id = ?] *)
Definition set_engagement_score (id score : Z) (s : store) : store :=
  {| projects := projects s;
     posted_content :=
       map (fun r =>
              if (pc_id r =? id)%Z then
                {| pc_id := pc_id r; pc_project_id := pc_project_id r;
                   pc_content := pc_content r; tweet_id := tweet_id r;
                   posted_date := posted_date r; engagement_score := score;
                   pc_content_type := pc_content_type r |}
              else r)
           (posted_content s);
     content_queue := content_queue s;
     next_posted_id := next_posted_id s;
     next_queue_id := next_queue_id s |}.

(** [scheduler.py], [_generate_and_queue_content]:
    [UPDATE content_queue SET scheduled_time = ? WHERE id = ?] *)
Definition set_scheduled_time (t : timestamp) (queue_id : Z) (s : store)
  : store :=
  {| projects := projects s;
     posted_content := posted_content s;
     content_queue :=
       map (fun q =>
              if (cq_id q =? queue_id)%Z then
                {| cq_id := cq_id q; cq_project_id := cq_project_id q;
                   cq_content := cq_content q;
                   cq_content_type := cq_content_type q;
                   scheduled_time := t; status := status q;
                   created_date := created_date q |}
              else q)
           (content_queue s);
     next_posted_id := next_posted_id s;
     next_queue_id := next_queue_id s |}.

(** The number of [posted_content] rows that reference a project. *)
Definition posted_rows_of (s : store) (project_id : Z) : Z :=
  Z.of_nat
    (length (filter (fun r => (pc_project_id r =? project_id)%Z)
               (posted_content s))).

(** A catalog row as [_populate_projects] inserts it. *)
Definition fresh_project (id : Z) (nm site handle descr cat : str)
    (added : timestamp) : project :=
  {| p_id := id; name := nm; website := site; twitter_handle := handle;
     description := descr; category := cat; added_date := added;
     last_posted := None; post_count := 0; is_active := true |}.

Definition is_fresh (p : project) : Prop :=
  last_posted p = None /\ post_count p = 0%Z.

(** The store right after [initialize] on an empty database file. *)
Definition initial (catalog : list project) : store :=
  {| projects := catalog; posted_content := []; content_queue := [];
     next_posted_id := 1; next_queue_id := 1 |}.

(** Every way the program changes the store.  [allow_purge] switches the
    weekly deletion of old [posted_content] rows on or off. *)
Inductive reachable (allow_purge : bool) : store -> Prop :=
| R_initial catalog :
    Forall is_fresh catalog -> reachable allow_purge (initial catalog)
| R_save now project_id content content_type s :
    reachable allow_purge s ->
    reachable allow_purge
      (snd (save_generated_content now project_id content content_type s))
| R_reschedule t queue_id s :
    reachable allow_purge s ->
    reachable allow_purge (set_scheduled_time t queue_id s)
| R_mark now queue_id tweet s :
    reachable allow_purge s ->
    reachable allow_purge (mark_content_posted now queue_id tweet s)
| R_direct now p content tweet s :
    reachable allow_purge s -> In p (projects s) ->
    reachable allow_purge (record_direct_post now (p_id p) content tweet s)
| R_delete_queue queue_id s :
    reachable allow_purge s ->
    reachable allow_purge (delete_queue_item queue_id s)
| R_daily now s :
    reachable allow_purge s ->
    reachable allow_purge (purge_stale_queue now s)
| R_engagement id score s :
    reachable allow_purge s ->
    reachable allow_purge (set_engagement_score id score s)
| R_weekly now s :
    allow_purge = true ->
    reachable allow_purge s ->
    reachable allow_purge (purge_old_posted now s).

End Database.

(* ================================================================== *)
(** * scheduler.py *)
(* ================================================================== *)

Module Scheduler.

Import Database.

Definition date := Z.

(** [datetime.now().date()] as the day number of the current time. *)
Definition date_of (t : timestamp) : date := (t / DAY)%Z.

(** The gating attributes of [ContentScheduler]. *)
Record counters := {
  max_posts_per_day : Z;
  daily_post_count : Z;
  last_post_date : option date
}.

(** [__init__] *)
Definition init : counters :=
  {| max_posts_per_day := 8; daily_post_count := 0; last_post_date := None |}.

Definition same_date (d : option date) (today : date) : bool :=
  match d with
  | Some x => (x =? today)%Z
  | None => false
  end.

(** [if self.last_post_date != today: reset], shared by the check and by
    the increment. *)
Definition roll_over (today : date) (c : counters) : counters :=
  if same_date (last_post_date c) today then c
  else {| max_posts_per_day := max_posts_per_day c;
          daily_post_count := 0;
          last_post_date := Some today |}.

Definition _can_post_today (today : date) (c : counters) : bool * counters :=
  let c := roll_over today c in
  ((daily_post_count c <? max_posts_per_day c)%Z, c).

Definition _increment_daily_post_count (today : date) (c : counters)
  : counters :=
  let c := roll_over today c in
  {| max_posts_per_day := max_posts_per_day c;
     daily_post_count := (daily_post_count c + 1)%Z;
     last_post_date := last_post_date c |}.

(** The counter part of [_daily_reset]. *)
Definition _daily_reset_counters (today : date) (c : counters) : counters :=
  {| max_posts_per_day := max_posts_per_day c;
     daily_post_count := 0;
     last_post_date := Some today |}.

(** The scheduler, the store, the clock position and the contents handed
    to the publisher so far. *)
Record world := {
  gate : counters;
  db : store;
  tick : nat;
  submitted : list str
}.

Section Jobs.

(** The n-th reading of the wall clock. *)
Variable clock : nat -> timestamp.

(** [twitter_client.post_content]: its answer may depend on everything
    submitted before. *)
Variable post_content : list str -> str -> option str.

Definition check_gate (w : world) : bool * world :=
  let (ok, c) := _can_post_today (date_of (clock (tick w))) (gate w) in
  (ok, {| gate := c; db := db w; tick := S (tick w);
          submitted := submitted w |}).

(** The body of the [for] loop after a passed check: submit, and on a
    truthy tweet id mark as posted and count. *)
Definition post_item (w : world) (content_item : queue_row) : world :=
  let content := cq_content content_item in
  match post_content (submitted w) content with
  | Some ((_ :: _) as tweet) =>
      {| gate :=
           _increment_daily_post_count
             (date_of (clock (S (tick w)))) (gate w);
         db := mark_content_posted (clock (tick w))
                 (cq_id content_item) tweet (db w);
         tick := S (S (tick w));
         submitted := submitted w ++ [content] |}
  | _ =>
      {| gate := gate w; db := db w; tick := tick w;
         submitted := submitted w ++ [content] |}
  end.

(** [for content_item in pending_content: if not self._can_post_today():
    break ...] *)
Fixpoint drain (w : world) (pending_content : list queue_row) : world :=
  match pending_content with
  | [] => w
  | content_item :: rest =>
      let (ok, w1) := check_gate w in
      if ok then drain (post_item w1 content_item) rest else w1
  end.

Definition _process_content_queue (w : world) : world :=
  let (ok, w1) := check_gate w in
  if ok then
    let pending_content := get_pending_content (clock (tick w1)) (db w1) in
    drain {| gate := gate w1; db := db w1; tick := S (tick w1);
             submitted := submitted w1 |} pending_content
  else w1.

End Jobs.

(** The gating states a scheduler can be in: [__init__] followed by any
    sequence of checks, increments guarded by a passed check (as in
    [_process_content_queue]) and daily resets, on arbitrary dates. *)
Inductive reachable : counters -> Prop :=
| R_init : reachable init
| R_check today c : reachable c -> reachable (snd (_can_post_today today c))
| R_increment today today' c :
    reachable c ->
    fst (_can_post_today today c) = true ->
    reachable
      (_increment_daily_post_count today' (snd (_can_post_today today c)))
| R_reset today c : reachable c -> reachable (_daily_reset_counters today c).

End Scheduler.

(* ================================================================== *)
(** * Facts about content_generator.py *)
(* ================================================================== *)

(* ================================================================== *)
(** * utils.py *)
(* ================================================================== *)

Module Utils.

(** [len(s)] as a Python integer. *)
Definition len (s : str) : Z := Z.of_nat (length s).

(** [text[:n]] for an integer [n]; a negative bound counts from the end and
    bounds beyond either end are clamped. *)
Definition slice_to (n : Z) (text : str) : str :=
  firstn (Z.to_nat (if (n <? 0)%Z then (n + len text)%Z else n)) text.

(** The two loops of [truncate_text_smart]:
    [if len(truncated + " " + x + suffix) <= max_length ... else: break]. *)
Fixpoint take_fitting_suffix (max_length : Z) (suffix truncated : str)
    (pieces : list str) : str :=
  match pieces with
  | [] => truncated
  | p :: rest =>
      if (len (truncated ++ lit " " ++ p ++ suffix) <=? max_length)%Z
      then take_fitting_suffix max_length suffix
             (ContentGenerator.append_piece truncated p) rest
      else truncated
  end.

Definition truncate_text_smart (text : str) (max_length : Z) (suffix : str)
  : str :=
  if (len text <=? max_length)%Z then text
  else
    match take_fitting_suffix max_length suffix [] (re_split_sentences text) with
    | (_ :: _) as truncated => truncated ++ suffix
    | [] =>
        match take_fitting_suffix max_length suffix [] (split_ws text) with
        | (_ :: _) as truncated => truncated ++ suffix
        | [] => slice_to (max_length - len suffix) text ++ suffix
        end
    end.

(** [re.sub(r'\s+', rep, s)]: every maximal run of whitespace becomes
    [rep].  [in_run] holds while inside a run. *)
Fixpoint replace_ws_runs (rep : str) (in_run : bool) (s : str) : str :=
  match s with
  | [] => []
  | c :: rest =>
      if isspace c
      then if in_run then replace_ws_runs rep true rest
           else rep ++ replace_ws_runs rep true rest
      else c :: replace_ws_runs rep false rest
  end.

(** [s.replace(old, new)] for a one-character [old]. *)
Definition replace_char (old : char) (new : str) (s : str) : str :=
  flat_map (fun c => if (c =? old)%N then new else [c]) s.

Definition clean_text (text : str) : str :=
  match text with
  | [] => []
  | _ =>
      let text := replace_ws_runs (lit " ") false (strip text) in
      let text := replace_char 8217%N (lit "'") text in
      let text := replace_char 8220%N [34%N] text in
      let text := replace_char 8221%N [34%N] text in
      let text := replace_char 8211%N (lit "-") text in
      let text := replace_char 8212%N (lit "--") text in
      text
  end.

(** The character class of the first substitution: the nine characters
    less-than, greater-than, colon, double quote, slash, backslash, bar,
    question mark and star. *)
Definition is_unsafe (c : char) : bool :=
  existsb (N.eqb c) [60; 62; 58; 34; 47; 92; 124; 63; 42]%N.

Definition UNDERSCORE : char := 95%N.

Definition sanitize_filename (filename : str) : str :=
  let filename := map (fun c => if is_unsafe c then UNDERSCORE else c) filename in
  let filename := replace_ws_runs [UNDERSCORE] false filename in
  if 200 <? length filename then firstn 200 filename else filename.

End Utils.

(* ================================================================== *)
(** * twitter_client.py: single posts and dispatch *)
(* ================================================================== *)

Module TwitterPosting.

Import TwitterClient.

(** The value of [post_tweet] or [post_content], the platform state it
    leaves, and the ordered record of the [create_tweet] calls it made. *)
Record post_run (api_state : Type) := {
  posted_id : option str;
  api_left : api_state;
  calls_made : list (api_call * api_response)
}.

Section Posting.

Variable api_state : Type.
Variable create_tweet : api_state -> api_call -> api_response * api_state.

(** [str.isdigit] on one character. *)
Variable isdigit : char -> bool.

(** The class [\d] of [re] on [str] patterns: the decimal digits of the
    Unicode database; ['/'] is not one of them. *)
Variable isdecimal : char -> bool.

Definition post_tweet (a : api_state) (content : str) : post_run api_state :=
  match prepare content with
  | None => {| posted_id := None; api_left := a; calls_made := [] |}
  | Some text =>
      let call := {| call_text := text; call_in_reply_to := None |} in
      let (response, a') := create_tweet a call in
      {| posted_id :=
           match response with
           | Created id => Some id
           | NoData | Raises _ => None
           end;
         api_left := a';
         calls_made := [(call, response)] |}
  end.

(** The longest prefix of decimal digits, and what follows it. *)
Fixpoint span_decimal (s : str) : str * str :=
  match s with
  | [] => ([], [])
  | c :: rest =>
      if isdecimal c
      then let (digits, tail) := span_decimal rest in (c :: digits, tail)
      else ([], s)
  end.

(** [re.sub(r'^\d+/\d+\s*', '', part)] *)
Definition strip_numbering (part : str) : str :=
  match span_decimal part with
  | (_ :: _, c :: after_slash) =>
      if (c =? SLASH)%N then
        match span_decimal after_slash with
        | (_ :: _, tail) => lstrip tail
        | ([], _) => part
        end
      else part
  | _ => part
  end.

Definition _parse_thread_content (content : str) : list str :=
  flat_map
    (fun part =>
       match strip part with
       | [] => []
       | (_ :: _) as part => [strip_numbering part]
       end)
    (split [NL; NL] content).

Definition post_content (a : api_state) (content : str) : post_run api_state :=
  if _is_thread_content isdigit content then
    let r := post_thread create_tweet a (_parse_thread_content content) in
    {| posted_id :=
         match returned r with
         | Some (id :: _) => Some id
         | _ => None
         end;
       api_left := api_after r;
       calls_made := calls r |}
  else post_tweet a content.

End Posting.

End TwitterPosting.

(* ================================================================== *)
(** * database.py: the remaining queries *)
(* ================================================================== *)

Module DatabaseQueries.

Import Database.

(** [get_projects(active_only)] *)
Definition get_projects (active_only : bool) (s : store) : list project :=
  order_by (fun a b => nulls_first_leb (last_posted a) (last_posted b))
    (if active_only then filter is_active (projects s) else projects s).

(** [get_project_by_id] *)
Definition get_project_by_id (project_id : Z) (s : store) : option project :=
  find (fun p => (p_id p =? project_id)%Z) (projects s).

(** [get_recent_content_for_project(project_id, days)]:
    [WHERE project_id = ? AND posted_date > ? ORDER BY posted_date DESC] *)
Definition get_recent_content_for_project (now : timestamp) (project_id : Z)
    (days : Z) (s : store) : list str :=
  let cutoff_date := (now - days * DAY)%Z in
  map pc_content
    (order_by (fun a b => (posted_date b <=? posted_date a)%Z)
       (filter (fun r => (pc_project_id r =? project_id)%Z
                         && (cutoff_date <? posted_date r)%Z)
          (posted_content s))).




End DatabaseQueries.

(* ================================================================== *)
(** * scheduler.py: the remaining jobs *)
(* ================================================================== *)

Module SchedulerJobs.

Import Database DatabaseQueries Scheduler.

(** The four counters that [get_tweet_stats] reads from the platform. *)
Record tweet_stats := {
  like_count : Z;
  retweet_count : Z;
  reply_count : Z;
  quote_count : Z
}.

Definition engagement_score_of (m : tweet_stats) : Z :=
  (like_count m * 1 + retweet_count m * 2 + reply_count m * 3
   + quote_count m * 2)%Z.

Section Jobs.

(** The n-th reading of the wall clock. *)
Variable clock : nat -> timestamp.

(** [twitter_client.get_tweet_stats]: [None] on any failure. *)
Variable get_tweet_stats : str -> option tweet_stats.

(** What the generative model does for a project and its recent posts. *)
Variable model : project -> list str -> ContentGenerator.model_outcome.

(** [random.randint(1, 5)], drawn at a clock position. *)
Variable posting_delay_minutes : nat -> Z.

(** [SELECT id, tweet_id FROM posted_content WHERE tweet_id IS NOT NULL
    AND posted_date > ? ORDER BY posted_date DESC LIMIT 50] *)
Definition recent_tweets (now : timestamp) (s : store) : list posted_row :=
  firstn 50
    (order_by (fun a b => (posted_date b <=? posted_date a)%Z)
       (filter (fun r => (now - 7 * DAY <? posted_date r)%Z)
          (posted_content s))).

(** The loop of [_update_engagement_scores] over the selected rows. *)
Fixpoint refresh_scores (rows : list posted_row) (s : store) : store :=
  match rows with
  | [] => s
  | tweet_record :: rest =>
      match get_tweet_stats (tweet_id tweet_record) with
      | Some stats =>
          refresh_scores rest
            (set_engagement_score (pc_id tweet_record)
               (engagement_score_of stats) s)
      | None => refresh_scores rest s
      end
  end.

Definition _update_engagement_scores (now : timestamp) (s : store) : store :=
  refresh_scores (recent_tweets now s) s.

Definition _weekly_maintenance (w : world) : world :=
  let s := purge_old_posted (clock (tick w)) (db w) in
  {| gate := gate w;
     db := _update_engagement_scores (clock (S (tick w))) s;
     tick := S (S (tick w));
     submitted := submitted w |}.

Definition _daily_reset (w : world) : world :=
  {| gate := _daily_reset_counters (date_of (clock (tick w))) (gate w);
     db := purge_stale_queue (clock (S (tick w))) (db w);
     tick := S (S (tick w));
     submitted := submitted w |}.

Definition _generate_and_queue_content (w : world) : world :=
  let (ok, w1) := check_gate clock w in
  if ok then
    match get_next_project_to_post (clock (tick w1)) (db w1) with
    | None =>
        {| gate := gate w1; db := db w1; tick := S (tick w1);
           submitted := submitted w1 |}
    | Some project =>
        let recent_content :=
          get_recent_content_for_project (clock (S (tick w1)))
            (p_id project) 7 (db w1) in
        match ContentGenerator.generate_content (model project recent_content) with
        | Some ((_ :: _) as content) =>
            let scheduled :=
              (clock (S (S (tick w1)))
               + 60 * posting_delay_minutes (tick w1))%Z in
            let (queue_id, s) :=
              save_generated_content (clock (S (S (S (tick w1)))))
                (p_id project) content (lit "analysis") (db w1) in
            {| gate := gate w1;
               db := set_scheduled_time scheduled queue_id s;
               tick := S (S (S (S (tick w1))));
               submitted := submitted w1 |}
        | _ =>
            {| gate := gate w1; db := db w1; tick := S (S (tick w1));
               submitted := submitted w1 |}
        end
    end
  else w1.

End Jobs.

End SchedulerJobs.

Unset Implicit Arguments.

Module ContentGeneratorFacts.

Import ContentGenerator.

Lemma ellipsis_length : length (lit "...") = 3.
Proof. reflexivity. Qed.

Lemma append_piece_length (acc piece : str) :
  length (append_piece acc piece) <= length (acc ++ lit " " ++ piece).
Proof.
  destruct acc as [|a acc]; cbn [append_piece].
  - rewrite !length_app. lia.
  - lia.
Qed.

(** The accumulator of either truncation loop never outgrows the limit. *)
Lemma take_fitting_length (limit : nat) (pieces : list str) :
  forall truncated,
    length truncated <= limit ->
    length (take_fitting limit truncated pieces) <= limit.
Proof.
  induction pieces as [|p rest IH]; intros truncated Hle; cbn [take_fitting].
  - exact Hle.
  - destruct (length (truncated ++ lit " " ++ p) <=? limit) eqn:Hfit.
    + apply IH. apply Nat.leb_le in Hfit.
      pose proof (append_piece_length truncated p). lia.
    + exact Hle.
Qed.

Lemma truncate_tweet_short (tweet : str) :
  length tweet <= 280 -> _truncate_tweet tweet = tweet.
Proof.
  intros H. unfold _truncate_tweet.
  apply Nat.leb_le in H. now rewrite H.
Qed.

Lemma truncate_tweet_length (tweet : str) :
  length (_truncate_tweet tweet) <= 280.
Proof.
  unfold _truncate_tweet.
  destruct (length tweet <=? 280) eqn:Hshort.
  - now apply Nat.leb_le.
  - pose proof (take_fitting_length 277 (re_split_sentences tweet) []) as Hs.
    pose proof (take_fitting_length 277 (split_ws tweet) []) as Hw.
    cbn [length] in Hs, Hw.
    destruct (take_fitting 277 [] (re_split_sentences tweet)) as [|c s].
    + destruct (take_fitting 277 [] (split_ws tweet)) as [|c w].
      * rewrite length_app, ellipsis_length.
        pose proof (firstn_le_length 277 tweet).
        rewrite length_firstn. lia.
      * rewrite length_app, ellipsis_length. specialize (Hw ltac:(lia)). cbn [length] in *. lia.
    + rewrite length_app, ellipsis_length. specialize (Hs ltac:(lia)). cbn [length] in *. lia.
Qed.

Lemma truncate_tweet_idempotent (tweet : str) :
  _truncate_tweet (_truncate_tweet tweet) = _truncate_tweet tweet.
Proof. apply truncate_tweet_short, truncate_tweet_length. Qed.

Lemma truncate_tweet_ellipsis (tweet : str) :
  280 < length tweet ->
  exists body, _truncate_tweet tweet = body ++ lit "..." /\ length body <= 277.
Proof.
  intros Hlong. unfold _truncate_tweet.
  destruct (length tweet <=? 280) eqn:Hshort.
  - apply Nat.leb_le in Hshort. lia.
  - pose proof (take_fitting_length 277 (re_split_sentences tweet) []) as Hs.
    pose proof (take_fitting_length 277 (split_ws tweet) []) as Hw.
    cbn [length] in Hs, Hw.
    destruct (take_fitting 277 [] (re_split_sentences tweet)) as [|c s].
    + destruct (take_fitting 277 [] (split_ws tweet)) as [|c w].
      * eexists; split; [reflexivity|]. rewrite length_firstn. lia.
      * eexists; split; [reflexivity|]. apply Hw. lia.
    + eexists; split; [reflexivity|]. apply Hs. lia.
Qed.

(** Every tweet that passes the validation loop has between 50 and 280
    characters. *)
Lemma validate_tweet_bounds (tweet tweet' : str) :
  validate_tweet tweet = Some tweet' ->
  50 <= length tweet' <= 280.
Proof.
  unfold validate_tweet.
  set (t := strip tweet).
  destruct (280 <? length t) eqn:Hlong.
  - destruct (length (_truncate_tweet t) <? 50) eqn:Hmin; [discriminate|].
    intros [= <-]. apply Nat.ltb_ge in Hmin.
    pose proof (truncate_tweet_length t). lia.
  - destruct (length t <? 50) eqn:Hmin; [discriminate|].
    intros [= <-]. apply Nat.ltb_ge in Hmin, Hlong. lia.
Qed.

Lemma validate_tweets_bounds (tweets : list str) :
  Forall (fun t => 50 <= length t <= 280) (validate_tweets tweets).
Proof.
  induction tweets as [|t rest IH]; cbn [validate_tweets].
  - constructor.
  - destruct (validate_tweet t) as [t'|] eqn:Hv; [|exact IH].
    constructor; [now apply validate_tweet_bounds with t | exact IH].
Qed.

(** No surviving tweet means no content, and conversely. *)
Lemma clean_and_validate_none_iff (content : str) :
  _clean_and_validate_content content = None <->
  content = [] \/ validated_of content = [].
Proof.
  unfold _clean_and_validate_content.
  destruct content as [|c content].
  - split; [now left | reflexivity].
  - destruct (validated_of (c :: content)) eqn:Hv.
    + split; [now right | reflexivity].
    + split; [discriminate | intros [H|H]; discriminate].
Qed.

(** A text with a single surviving tweet comes back as that tweet. *)
Lemma single_tweet_output (content tweet : str) :
  content <> [] ->
  validated_of content = [tweet] ->
  _clean_and_validate_content content = Some tweet
  /\ 50 <= length tweet <= 280.
Proof.
  intros Hne Hv. split.
  - unfold _clean_and_validate_content. destruct content; [easy|].
    now rewrite Hv.
  - pose proof (validate_tweets_bounds
                  (_split_into_tweets (collapse_blank_lines (strip content))))
      as Hall.
    fold (validated_of content) in Hall. rewrite Hv in Hall.
    now inversion Hall.
Qed.

End ContentGeneratorFacts.

Module ContentGeneratorBoundaryCases.

Import ContentGenerator.

Definition letters (c : string) (n : nat) : str :=
  concat (repeat (lit c) n).

(** A raw text of two paragraphs: 280 letters, a blank line, 60 letters. *)
Definition two_paragraphs : str :=
  letters "a" 280 ++ [NL; NL] ++ letters "b" 60.

(** C1, evaluated on [two_paragraphs].  Both paragraphs pass validation
    (280 and 60 characters), the text is returned as a two-part thread,
    and the first segment of the returned text, the first tweet followed
    by a space and the thread suffix, has 285 characters; the second,
    behind its "2/2 " prefix, has 64. *)
Theorem thread_segment_exceeds_280 :
  validated_of two_paragraphs = [letters "a" 280; letters "b" 60]
  /\ _clean_and_validate_content two_paragraphs
     = Some ((letters "a" 280 ++ lit " " ++ thread_suffix_glyph)
             ++ [NL; NL] ++ (lit "2/2 " ++ letters "b" 60))
  /\ length (letters "a" 280 ++ lit " " ++ thread_suffix_glyph) = 285.
Proof. repeat split; vm_compute; reflexivity. Qed.

(** A first sentence of exactly 277 characters (ten letters, twenty
    spaces, 246 letters and a full stop), then a second sentence. *)
Definition sentence_277 : str :=
  letters "a" 10 ++ letters " " 20 ++ letters "b" 246 ++ lit ".".

Definition long_tweet : str := sentence_277 ++ lit " cc " ++ letters "d" 30.

(** C7, evaluated on [long_tweet] (311 characters).  Its first sentence
    has 277 characters, so with the ellipsis it fits in 280; the sentence
    loop compares [len("" + " " + sentence)], which is 278, with 277 and
    gives up, and the word loop returns a cut inside the second
    sentence. *)
Theorem truncate_misses_277_char_sentence :
  length long_tweet = 311
  /\ re_split_sentences long_tweet = [sentence_277; lit "cc " ++ letters "d" 30]
  /\ length sentence_277 = 277
  /\ take_fitting 277 [] (re_split_sentences long_tweet) = []
  /\ _truncate_tweet long_tweet
     = letters "a" 10 ++ lit " " ++ letters "b" 246 ++ lit ". cc" ++ lit "..."
  /\ _truncate_tweet long_tweet <> sentence_277 ++ lit "...".
Proof.
  repeat split; try (vm_compute; reflexivity).
  vm_compute. discriminate.
Qed.

End ContentGeneratorBoundaryCases.

(* ================================================================== *)
(** * Facts about twitter_client.py *)
(* ================================================================== *)

Module TwitterClientFacts.

Import TwitterClient.

(** The classifier unfolded into its three tests. *)
Lemma is_thread_content_true_iff (isdigit : char -> bool) (content : str) :
  _is_thread_content isdigit content = true <->
  (contains [SLASH] content = true
   /\ existsb isdigit (last3 (hd [] (split [SLASH] content))) = true)
  \/ 1 < length (paragraphs content)
  \/ contains THREAD_EMOJI content = true.
Proof.
  unfold _is_thread_content.
  destruct (contains [SLASH] content) eqn:Hs;
    destruct (existsb isdigit (last3 (hd [] (split [SLASH] content)))) eqn:Hd;
    cbn [andb];
    try (split; [intros _; left; now split | reflexivity]);
    (destruct (1 <? length (paragraphs content)) eqn:Hp;
     [ apply Nat.ltb_lt in Hp; split; [intros _; right; now left | reflexivity]
     | apply Nat.ltb_ge in Hp;
       destruct (contains THREAD_EMOJI content) eqn:He;
       [ split; [intros _; right; now right | reflexivity]
       | split; [discriminate
                | intros [[? ?]|[?|?]]; try discriminate; lia ] ] ]).
Qed.

(** A one-paragraph text without a slash that carries the suffix the
    generator appends to the first tweet of a thread. *)
Definition marked_text : str :=
  lit "Deep dive into rollups" ++ lit " " ++ ContentGenerator.thread_suffix_glyph.

(** C3, evaluated on [marked_text].  The text contains the glyph written
    by the generator's thread formatting, yet it is classified as a
    single post: the classifier looks for U+1F9F5, the generator writes
    U+00F0 U+0178 U+00A7 U+00B5. *)
Theorem generator_glyph_not_recognised (isdigit : char -> bool) :
  contains ContentGenerator.thread_suffix_glyph marked_text = true
  /\ contains [SLASH] marked_text = false
  /\ paragraphs marked_text = [marked_text]
  /\ contains THREAD_EMOJI marked_text = false
  /\ _is_thread_content isdigit marked_text = false.
Proof. repeat split; vm_compute; reflexivity. Qed.

Section Thread.

Variable api_state : Type.
Variable create_tweet : api_state -> api_call -> api_response * api_state.

Lemma created_not_failure (c : api_call * api_response) :
  is_created c -> is_failure c -> False.
Proof.
  intros [id Hc] [Hf | [e Hf]]; rewrite Hc in Hf; discriminate.
Qed.

Lemma confirmed_ids_app (l1 l2 : list (api_call * api_response)) :
  confirmed_ids (l1 ++ l2) = confirmed_ids l1 ++ confirmed_ids l2.
Proof.
  induction l1 as [|[c r] l1 IH]; cbn; [reflexivity|].
  destruct r; cbn; now rewrite IH.
Qed.

Lemma confirmed_ids_all_created (l : list (api_call * api_response)) :
  Forall is_created l -> length (confirmed_ids l) = length l.
Proof.
  induction 1 as [|[c r] l [id Hid] _ IH]; cbn; [reflexivity|].
  cbn in Hid. subst r. cbn. now rewrite IH.
Qed.

(** The shape of every run of the loop: confirmed calls, then at most
    one failed call, which is the last; the value returned lists the
    identifiers of the confirmed calls. *)
Lemma post_thread_loop_shape (tweets : list str) :
  forall a tweet_ids previous log,
    Forall is_created log ->
    confirmed_ids log = tweet_ids ->
    let r := post_thread_loop create_tweet a tweet_ids previous log tweets in
    exists oks tail,
      calls r = oks ++ tail
      /\ Forall is_created oks
      /\ (tail = [] \/ exists f, tail = [f] /\ is_failure f)
      /\ returned r = ids_or_none (confirmed_ids oks).
Proof.
  induction tweets as [|t rest IH]; intros a ids previous log Hlog Hids;
    cbn [post_thread_loop].
  - exists log, []. cbn. rewrite app_nil_r, Hids. auto.
  - destruct (prepare t) as [text|]; [|now apply IH].
    match goal with
    | |- context [create_tweet a ?c] =>
        set (call := c); destruct (create_tweet a call) as [response a'] eqn:Hcall
    end.
    destruct response as [id| |e].
    + apply IH.
      * apply Forall_app; split; [assumption|].
        constructor; [now exists id | constructor].
      * rewrite confirmed_ids_app, Hids. reflexivity.
    + exists log, [(call, NoData)]. cbn. rewrite Hids.
      repeat split; auto. right. eexists; split; [reflexivity|]. now left.
    + exists log, [(call, Raises e)]. cbn. rewrite Hids.
      repeat split; auto. right. eexists; split; [reflexivity|].
      right. now exists e.
Qed.

Lemma post_thread_shape (a : api_state) (tweets : list str) :
  let r := post_thread create_tweet a tweets in
  exists oks tail,
    calls r = oks ++ tail
    /\ Forall is_created oks
    /\ (tail = [] \/ exists f, tail = [f] /\ is_failure f)
    /\ returned r = ids_or_none (confirmed_ids oks).
Proof.
  destruct tweets as [|t rest].
  - exists [], []. cbn. auto.
  - apply (post_thread_loop_shape (t :: rest)); [constructor | reflexivity].
Qed.

(** Two readings of one call record as confirmed calls followed by a
    failure coincide. *)
Lemma split_at_first_failure (pre : list (api_call * api_response)) :
  forall c post oks tail,
    pre ++ c :: post = oks ++ tail ->
    Forall is_created pre -> is_failure c ->
    Forall is_created oks ->
    (tail = [] \/ exists f, tail = [f] /\ is_failure f) ->
    pre = oks /\ post = [].
Proof.
  induction pre as [|p pre IH]; intros c post oks tail Heq Hpre Hc Hoks Htail.
  - destruct oks as [|o oks].
    + cbn in Heq. destruct Htail as [-> | [f [-> _]]]; [discriminate|].
      injection Heq as _ Hpost. now split.
    + cbn in Heq. injection Heq as -> _.
      inversion Hoks; subst. exfalso. eauto using created_not_failure.
  - inversion Hpre as [|? ? Hp Hpre']; subst.
    destruct oks as [|o oks].
    + cbn in Heq. destruct Htail as [-> | [f [-> Hf]]]; [discriminate|].
      injection Heq as -> _. exfalso. eauto using created_not_failure.
    + cbn in Heq. injection Heq as -> Heq.
      inversion Hoks; subst.
      destruct (IH _ _ _ _ Heq Hpre' Hc ltac:(assumption) Htail) as [-> ->].
      now split.
Qed.

(** C6.  Whenever a thread publish makes [k >= 1] confirmed calls [pre]
    and the next call [c] fails (an exception of any kind, or an answer
    without data), no call follows [c], and the function returns exactly
    the [k] identifiers of [pre] in submission order. *)
Theorem post_thread_partial_failure
    (a : api_state) (tweets : list str)
    (pre post : list (api_call * api_response))
    (c : api_call * api_response) :
  calls (post_thread create_tweet a tweets) = pre ++ c :: post ->
  Forall is_created pre ->
  is_failure c ->
  1 <= length pre ->
  post = []
  /\ returned (post_thread create_tweet a tweets) = Some (confirmed_ids pre)
  /\ length (confirmed_ids pre) = length pre.
Proof.
  intros Hcalls Hpre Hc Hk.
  destruct (post_thread_shape a tweets) as (oks & tail & Heq & Hoks & Htail & Hret).
  rewrite Hcalls in Heq.
  destruct (split_at_first_failure pre c post oks tail Heq Hpre Hc Hoks Htail)
    as [<- ->].
  pose proof (confirmed_ids_all_created pre Hpre) as Hlen.
  repeat split; [|exact Hlen].
  rewrite Hret. unfold ids_or_none.
  destruct (confirmed_ids pre); [cbn in Hlen; lia | reflexivity].
Qed.

End Thread.

(** A platform that confirms the first call, refuses the second with a
    forbidden error, and would confirm any later one.  Its state is the
    number of calls received. *)
Definition forbidden_on_second (n : nat) (c : api_call)
  : api_response * nat :=
  (match n with
   | 0 => Created (lit "1001")
   | 1 => Raises Forbidden
   | _ => Created (lit "1003")
   end, S n).

Definition three_segments : list str :=
  [lit "First segment of the thread";
   lit "Second segment of the thread";
   lit "Third segment of the thread"].

Definition first_call : api_call * api_response :=
  ({| call_text := lit "First segment of the thread";
      call_in_reply_to := None |}, Created (lit "1001")).

Definition second_call : api_call * api_response :=
  ({| call_text := lit "Second segment of the thread";
      call_in_reply_to := Some (lit "1001") |}, Raises Forbidden).

(** The scenario of the specification: three segments, the second one
    raising a forbidden error.  The run made exactly two calls and
    returned exactly the identifier of the first segment. *)
Lemma post_thread_partial_failure_witness :
  calls (post_thread forbidden_on_second 0 three_segments)
  = [first_call] ++ second_call :: []
  /\ returned (post_thread forbidden_on_second 0 three_segments)
     = Some [lit "1001"].
Proof.
  split; [reflexivity|].
  refine (proj1 (proj2
    (post_thread_partial_failure nat forbidden_on_second 0 three_segments
       [first_call] [] second_call _ _ _ _))).
  - reflexivity.
  - repeat constructor. exists (lit "1001"). reflexivity.
  - right. exists Forbidden. reflexivity.
  - cbn. lia.
Defined.

End TwitterClientFacts.

(* ================================================================== *)
(** * Facts about database.py *)
(* ================================================================== *)

Module DatabaseFacts.

Import Database.

Local Open Scope Z_scope.

(** ** ORDER BY ... LIMIT 1 *)

Section FirstRow.

Variable row : Type.
Variable leb : row -> row -> bool.
Hypothesis leb_total : forall a b, leb a b = true \/ leb b a = true.
Hypothesis leb_trans :
  forall a b c, leb a b = true -> leb b c = true -> leb a c = true.

Lemma hd_insert_row (r : row) (sorted : list row) :
  hd_error (insert_row leb r sorted)
  = match sorted with
    | [] => Some r
    | x :: _ => if leb r x then Some r else Some x
    end.
Proof. destruct sorted as [|x rest]; cbn; [|destruct (leb r x)]; reflexivity. Qed.

Lemma order_by_nil_iff (rows : list row) :
  order_by leb rows = [] <-> rows = [].
Proof.
  split; [|now intros ->].
  destruct rows as [|r rows]; [reflexivity|].
  unfold order_by. cbn [fold_right]. fold (order_by leb rows).
  destruct (order_by leb rows) as [|x rest]; cbn [insert_row];
    [discriminate|].
  destruct (leb r x); discriminate.
Qed.

(** The first row of the ordered result is a row of the input and no
    row of the input sorts strictly before it. *)
Lemma order_by_first (rows : list row) (q : row) :
  hd_error (order_by leb rows) = Some q ->
  In q rows /\ forall p, In p rows -> leb q p = true.
Proof.
  revert q. induction rows as [|r rows IH]; intros q; [discriminate|].
  unfold order_by. cbn [fold_right]. fold (order_by leb rows).
  rewrite hd_insert_row.
  destruct (order_by leb rows) as [|x rest] eqn:Hsorted.
  - intros [= <-]. apply (proj1 (order_by_nil_iff _)) in Hsorted. subst rows.
    split; [now left|]. intros p [<-|[]].
    destruct (leb_total r r); assumption.
  - destruct (IH x eq_refl) as [Hin Hmin].
    destruct (leb r x) eqn:Hrx; intros [= <-].
    + split; [now left|]. intros p [<-|Hp].
      * destruct (leb_total r r); assumption.
      * eauto.
    + split; [now right|]. intros p [<-|Hp]; [|now apply Hmin].
      destruct (leb_total x r) as [H|H]; [exact H | congruence].
Qed.

End FirstRow.

Lemma nulls_first_total (a b : option timestamp) :
  nulls_first_leb a b = true \/ nulls_first_leb b a = true.
Proof.
  destruct a as [x|], b as [y|]; cbn; auto.
  destruct (Z.leb_spec x y); [now left|right]. apply Z.leb_le. lia.
Qed.

Lemma nulls_first_trans (a b c : option timestamp) :
  nulls_first_leb a b = true -> nulls_first_leb b c = true ->
  nulls_first_leb a c = true.
Proof.
  destruct a as [x|], b as [y|], c as [z|]; cbn; try easy.
  rewrite !Z.leb_le. lia.
Qed.

Definition by_last_posted (a b : project) : bool :=
  nulls_first_leb (last_posted a) (last_posted b).

Lemma get_next_unfold (now : timestamp) (s : store) :
  get_next_project_to_post now s
  = hd_error (order_by by_last_posted
                (filter (eligible (now - 1 * DAY)) (projects s))).
Proof. reflexivity. Qed.

(** What the query returns, row by row. *)
Lemma get_next_some (now : timestamp) (s : store) (q : project) :
  get_next_project_to_post now s = Some q ->
  In q (projects s)
  /\ eligible (now - 1 * DAY) q = true
  /\ forall p, In p (projects s) -> eligible (now - 1 * DAY) p = true ->
               nulls_first_leb (last_posted q) (last_posted p) = true.
Proof.
  rewrite get_next_unfold. intros H.
  apply order_by_first in H.
  - destruct H as [Hin Hmin]. apply filter_In in Hin as [Hin Hel].
    repeat split; [assumption..|].
    intros p Hp Hpel. apply Hmin. apply filter_In. now split.
  - intros a b. apply nulls_first_total.
  - intros a b c. apply nulls_first_trans.
Qed.

Lemma get_next_none_iff (now : timestamp) (s : store) :
  get_next_project_to_post now s = None <->
  forall p, In p (projects s) -> eligible (now - 1 * DAY) p = false.
Proof.
  rewrite get_next_unfold.
  destruct (order_by by_last_posted
              (filter (eligible (now - 1 * DAY)) (projects s)))
    as [|x rest] eqn:Hsorted; cbn [hd_error].
  - apply (proj1 (order_by_nil_iff _ _ _)) in Hsorted. split; [intros _|reflexivity].
    intros p Hp. destruct (eligible (now - 1 * DAY) p) eqn:He; [|reflexivity].
    assert (In p (filter (eligible (now - 1 * DAY)) (projects s)))
      by (apply filter_In; now split).
    rewrite Hsorted in H. destruct H.
  - split; [discriminate|]. intros Hnone. exfalso.
    assert (Hx : hd_error (order_by by_last_posted
              (filter (eligible (now - 1 * DAY)) (projects s))) = Some x)
      by now rewrite Hsorted.
    apply order_by_first in Hx;
      [|intros a b; apply nulls_first_total
       |intros a b c; apply nulls_first_trans].
    destruct Hx as [Hin _]. apply filter_In in Hin as [Hin Hel].
    rewrite (Hnone x Hin) in Hel. discriminate.
Qed.

Lemma eligible_spec (cutoff : timestamp) (p : project) :
  eligible cutoff p = true <->
  is_active p = true
  /\ (last_posted p = None \/ exists t, last_posted p = Some t /\ t < cutoff).
Proof.
  unfold eligible. destruct (is_active p); cbn [andb].
  - destruct (last_posted p) as [t|].
    + rewrite Z.ltb_lt. split.
      * intros H. split; [reflexivity|]. right. now exists t.
      * intros [_ [H|[t' [[= <-] H]]]]; [discriminate | exact H].
    + split; [intros _; split; [reflexivity | now left] | reflexivity].
  - split; [discriminate | intros [H _]; discriminate].
Qed.

(** ** Subject selection: examples *)

Definition subject (id : Z) (posted : option timestamp) (count : Z)
    (active : bool) : project :=
  {| p_id := id; name := lit "subject"; website := lit "https://example.org";
     twitter_handle := lit "@subject"; description := []; category := lit "DeFi";
     added_date := 0; last_posted := posted; post_count := count;
     is_active := active |}.

Definition catalog_of (subjects : list project) : store :=
  {| projects := subjects; posted_content := []; content_queue := [];
     next_posted_id := 1; next_queue_id := 1 |}.

(** C2, refuted as stated.  At time 100000 the only subject is active and
    was posted at time 99000, less than 24 hours earlier; the query
    returns no row. *)
Lemma pick_next_cooldown_counterexample :
  let s := catalog_of [subject 1 (Some 99000) 1 true] in
  (exists p, In p (projects s) /\ is_active p = true)
  /\ get_next_project_to_post 100000 s = None.
Proof.
  cbn zeta. split; [|reflexivity].
  eexists; split; [left; reflexivity | reflexivity].
Qed.

(** C2, amended.  [get_next_project_to_post] ranges over the active
    subjects that were never posted or were last posted more than 24 hours
    before the call.  It returns one of them whose [last_posted] is oldest,
    never-posted first; and it answers that there is no eligible subject
    exactly when every active subject was posted within the last 24
    hours. *)
Theorem pick_next_oldest_outside_cooldown (now : timestamp) (s : store) :
  (forall q,
      get_next_project_to_post now s = Some q ->
      In q (projects s)
      /\ is_active q = true
      /\ (last_posted q = None
          \/ exists t, last_posted q = Some t /\ t < now - DAY)
      /\ forall p, In p (projects s) -> is_active p = true ->
           (last_posted p = None
            \/ exists t, last_posted p = Some t /\ t < now - DAY) ->
           nulls_first_leb (last_posted q) (last_posted p) = true)
  /\ (get_next_project_to_post now s = None <->
      forall p, In p (projects s) -> is_active p = true ->
                exists t, last_posted p = Some t /\ now - DAY <= t).
Proof.
  replace (now - DAY) with (now - 1 * DAY) by lia.
  split.
  - intros q Hq. apply get_next_some in Hq as (Hin & Hel & Hmin).
    apply eligible_spec in Hel as [Hact Hold].
    repeat split; try assumption.
    intros p Hp Hpact Hpold. apply Hmin; [assumption|].
    apply eligible_spec. now split.
  - rewrite get_next_none_iff. split.
    + intros Hnone p Hp Hact. specialize (Hnone p Hp).
      unfold eligible in Hnone. rewrite Hact in Hnone. cbn [andb] in Hnone.
      destruct (last_posted p) as [t|]; [|discriminate].
      exists t. split; [reflexivity|]. apply Z.ltb_ge in Hnone. exact Hnone.
    + intros Hall p Hp. unfold eligible.
      destruct (is_active p) eqn:Hact; [|reflexivity]. cbn [andb].
      destruct (Hall p Hp Hact) as [t [-> Ht]]. apply Z.ltb_ge. exact Ht.
Qed.

(** C9.  If some active subject was never posted, the query returns a
    subject, that subject is active and was never posted, whatever the
    order of the catalog rows; and whatever the catalog, a returned
    subject is active. *)
Theorem pick_next_never_posted_first (now : timestamp) (s : store) :
  (exists p, In p (projects s) /\ is_active p = true /\ last_posted p = None) ->
  (exists q, get_next_project_to_post now s = Some q
             /\ In q (projects s)
             /\ is_active q = true
             /\ last_posted q = None)
  /\ (forall q s', get_next_project_to_post now s' = Some q ->
                   is_active q = true).
Proof.
  intros (p & Hp & Hact & Hnull). split.
  - assert (Hel : eligible (now - 1 * DAY) p = true)
      by (apply eligible_spec; split; [assumption | now left]).
    destruct (get_next_project_to_post now s) as [q|] eqn:Hq.
    + exists q. pose proof (get_next_some now s q Hq) as (Hin & Hqel & Hmin).
      apply eligible_spec in Hqel as [Hqact _].
      repeat split; try assumption.
      specialize (Hmin p Hp Hel). rewrite Hnull in Hmin.
      destruct (last_posted q); [discriminate | reflexivity].
    + rewrite get_next_none_iff in Hq. rewrite (Hq p Hp) in Hel. discriminate.
  - intros q s' Hq. apply get_next_some in Hq as (_ & Hel & _).
    now apply eligible_spec in Hel as [? _].
Qed.

(** A catalog whose first rows were posted long ago and whose last active
    row was never posted. *)
Definition mixed_catalog : store :=
  catalog_of [subject 1 (Some 1000) 4 true;
              subject 2 None 0 false;
              subject 3 (Some 500) 2 true;
              subject 4 None 0 true].

Lemma pick_next_never_posted_first_witness :
  get_next_project_to_post 1000000 mixed_catalog = Some (subject 4 None 0 true)
  /\ exists q, get_next_project_to_post 1000000 mixed_catalog = Some q
               /\ In q (projects mixed_catalog)
               /\ is_active q = true
               /\ last_posted q = None.
Proof.
  split; [reflexivity|].
  refine (proj1 (pick_next_never_posted_first 1000000 mixed_catalog _)).
  exists (subject 4 None 0 true).
  split; [cbn; tauto | split; reflexivity].
Defined.

End DatabaseFacts.

Module StoreInvariants.

Import Database.

Local Open Scope Z_scope.

(** ** Row counts under each statement *)

Lemma posted_rows_record_post now pid content tweet ctype queue s id :
  posted_rows_of (record_post now pid content tweet ctype queue s) id
  = posted_rows_of s id + (if pid =? id then 1 else 0).
Proof.
  unfold posted_rows_of, record_post. cbn [posted_content].
  rewrite filter_app, length_app. cbn [filter pc_project_id].
  destruct (pid =? id); cbn [length]; lia.
Qed.

Lemma bump_project_id now pid p : p_id (bump_project now pid p) = p_id p.
Proof. unfold bump_project. now destruct (p_id p =? pid). Qed.

Lemma bump_project_count now pid p :
  post_count (bump_project now pid p)
  = post_count p + (if pid =? p_id p then 1 else 0).
Proof.
  unfold bump_project. rewrite (Z.eqb_sym pid).
  destruct (p_id p =? pid); cbn [post_count]; lia.
Qed.

(** Recording a post moves the counter and the row count of every subject
    by the same amount. *)
Lemma record_post_gap now pid content tweet ctype queue s p' :
  In p' (projects (record_post now pid content tweet ctype queue s)) ->
  exists p, In p (projects s)
            /\ post_count p'
               - posted_rows_of (record_post now pid content tweet ctype queue s)
                   (p_id p')
               = post_count p - posted_rows_of s (p_id p).
Proof.
  cbn [record_post projects]. intros Hin.
  apply in_map_iff in Hin as (p & <- & Hp). exists p. split; [exact Hp|].
  rewrite posted_rows_record_post, bump_project_id, bump_project_count. lia.
Qed.

Lemma mark_content_posted_gap now queue_id tweet s p' :
  In p' (projects (mark_content_posted now queue_id tweet s)) ->
  exists p, In p (projects s)
            /\ post_count p'
               - posted_rows_of (mark_content_posted now queue_id tweet s)
                   (p_id p')
               = post_count p - posted_rows_of s (p_id p).
Proof.
  unfold mark_content_posted.
  destruct (find (fun q => cq_id q =? queue_id) (content_queue s)).
  - apply record_post_gap.
  - intros Hin. now exists p'.
Qed.

Lemma posted_rows_set_engagement id score s pid :
  posted_rows_of (set_engagement_score id score s) pid = posted_rows_of s pid.
Proof.
  unfold posted_rows_of, set_engagement_score. cbn [posted_content].
  f_equal. induction (posted_content s) as [|r rows IH]; [reflexivity|].
  cbn [map filter].
  assert (Hsame : pc_project_id
                    (if pc_id r =? id
                     then {| pc_id := pc_id r; pc_project_id := pc_project_id r;
                             pc_content := pc_content r; tweet_id := tweet_id r;
                             posted_date := posted_date r;
                             engagement_score := score;
                             pc_content_type := pc_content_type r |}
                     else r) = pc_project_id r)
    by now destruct (pc_id r =? id).
  rewrite Hsame. destruct (pc_project_id r =? pid); cbn [length]; now rewrite IH.
Qed.

Lemma posted_rows_purge now s pid :
  posted_rows_of (purge_old_posted now s) pid <= posted_rows_of s pid.
Proof.
  unfold posted_rows_of, purge_old_posted. cbn [posted_content].
  apply Nat2Z.inj_le.
  induction (posted_content s) as [|r rows IH]; [reflexivity|].
  cbn [filter].
  destruct (negb (posted_date r <? now - 90 * DAY)); cbn [filter];
    destruct (pc_project_id r =? pid); cbn [length]; lia.
Qed.

(** In every reachable store the counter of a subject is at least its
    number of rows, and equal to it while no purge has run. *)
Lemma reachable_counts (allow_purge : bool) (s : store) :
  reachable allow_purge s ->
  forall p, In p (projects s) ->
    posted_rows_of s (p_id p) <= post_count p
    /\ (allow_purge = false -> post_count p = posted_rows_of s (p_id p)).
Proof.
  induction 1 as [catalog Hfresh
                 | now pid content ctype s Hs IH
                 | t queue_id s Hs IH
                 | now queue_id tweet s Hs IH
                 | now p0 content tweet s Hs IH Hp0
                 | queue_id s Hs IH
                 | now s Hs IH
                 | id score s Hs IH
                 | now s Hpurge Hs IH ]; intros p Hp.
  - cbn [initial projects] in Hp.
    rewrite Forall_forall in Hfresh. destruct (Hfresh p Hp) as [_ Hzero].
    unfold posted_rows_of. cbn. rewrite Hzero. split; [lia | reflexivity].
  - exact (IH p Hp).
  - exact (IH p Hp).
  - apply mark_content_posted_gap in Hp as (p1 & Hp1 & Hgap).
    destruct (IH p1 Hp1) as [Hle Heq]. split; [lia|].
    intros Hb. specialize (Heq Hb). lia.
  - unfold record_direct_post in *.
    apply record_post_gap in Hp as (p1 & Hp1 & Hgap).
    destruct (IH p1 Hp1) as [Hle Heq]. split; [lia|].
    intros Hb. specialize (Heq Hb). lia.
  - exact (IH p Hp).
  - exact (IH p Hp).
  - cbn [set_engagement_score projects] in Hp.
    rewrite posted_rows_set_engagement. exact (IH p Hp).
  - cbn [purge_old_posted projects] in Hp.
    destruct (IH p Hp) as [Hle _].
    pose proof (posted_rows_purge now s (p_id p)).
    split; [lia | intros Hb; congruence].
Qed.

(** ** One post, then a purge 91 days later *)

Definition one_subject : store :=
  initial [fresh_project 1 (lit "Subject") (lit "https://example.org")
             (lit "@subject") [] (lit "DeFi") 0].

Definition queued : store :=
  snd (save_generated_content 0 1 (lit "An analysis of the subject")
         (lit "analysis") one_subject).

Definition posted : store := mark_content_posted 10 1 (lit "1001") queued.

Definition purged : store := purge_old_posted (10 + 91 * DAY) posted.

Lemma purged_reachable : reachable true purged.
Proof.
  apply R_weekly; [reflexivity|]. apply R_mark. apply R_save.
  apply R_initial. repeat constructor.
Qed.

(** C8, refuted as stated.  After one recorded post and the weekly purge
    91 days later the subject has [post_count = 1] and no
    [posted_content] row. *)
Lemma purge_breaks_post_count_counterexample :
  ~ (forall s, reachable true s ->
       forall p, In p (projects s) ->
         post_count p = posted_rows_of s (p_id p)).
Proof.
  intros Hclaim.
  specialize (Hclaim purged purged_reachable).
  assert (Hp : exists p, In p (projects purged)
                         /\ post_count p = 1
                         /\ posted_rows_of purged (p_id p) = 0).
  { eexists. split; [left; reflexivity|]. split; reflexivity. }
  destruct Hp as (p & Hin & Hcount & Hrows).
  specialize (Hclaim p Hin). rewrite Hcount, Hrows in Hclaim. discriminate.
Qed.

(** C8, amended.  As long as the weekly purge has not run, each subject's
    [post_count] equals the number of [posted_content] rows that reference
    it, and every other operation, [mark_content_posted] among them,
    preserves the equality.  The purge deletes rows and leaves the
    subjects as they are, so in every reachable store [post_count] is at
    least the number of rows. *)
Theorem post_count_counts_recorded_posts (s : store) :
  (reachable false s ->
     forall p, In p (projects s) ->
       post_count p = posted_rows_of s (p_id p))
  /\ (reachable true s ->
        forall p, In p (projects s) ->
          posted_rows_of s (p_id p) <= post_count p)
  /\ (forall now, projects (purge_old_posted now s) = projects s
        /\ forall pid, posted_rows_of (purge_old_posted now s) pid
                       <= posted_rows_of s pid).
Proof.
  split; [|split].
  - intros Hs p Hp. now apply (reachable_counts false s Hs p Hp).
  - intros Hs p Hp. now apply (reachable_counts true s Hs p Hp).
  - intros now. split; [reflexivity|]. intros pid. apply posted_rows_purge.
Qed.

(** ** Marking an unknown queue row *)

Lemma find_none_of_absent (queue_id : Z) (queue : list queue_row) :
  (forall q, In q queue -> cq_id q <> queue_id) ->
  find (fun q => cq_id q =? queue_id) queue = None.
Proof.
  intros Habsent.
  destruct (find (fun q => cq_id q =? queue_id) queue) as [q|] eqn:Hfind;
    [|reflexivity].
  apply find_some in Hfind as [Hin Heq]. apply Z.eqb_eq in Heq.
  now destruct (Habsent q Hin).
Qed.

(** C10.  When no row of [content_queue] carries [queue_id],
    [mark_content_posted] returns the store it was given: nothing is
    inserted into [posted_content], no subject's [last_posted] or
    [post_count] changes, and no queue row is deleted.  The function has
    no error exit on this path. *)
Theorem mark_content_posted_unknown_id
    (now : timestamp) (queue_id : Z) (tweet : str) (s : store) :
  (forall q, In q (content_queue s) -> cq_id q <> queue_id) ->
  mark_content_posted now queue_id tweet s = s.
Proof.
  intros Habsent. unfold mark_content_posted.
  now rewrite (find_none_of_absent queue_id (content_queue s) Habsent).
Qed.

Lemma mark_content_posted_unknown_id_witness :
  (forall q, In q (content_queue queued) -> cq_id q <> 7)
  /\ mark_content_posted 10 7 (lit "1001") queued = queued.
Proof.
  assert (H : forall q, In q (content_queue queued) -> cq_id q <> 7).
  { intros q [<-|[]]. cbn. lia. }
  split; [exact H|].
  exact (mark_content_posted_unknown_id 10 7 (lit "1001") queued H).
Defined.

End StoreInvariants.

(* ================================================================== *)
(** * Facts about scheduler.py *)
(* ================================================================== *)

Module SchedulerFacts.

Import Database Scheduler.

Local Open Scope Z_scope.

Lemma same_date_true (d : option date) (today : date) :
  same_date d today = true <-> d = Some today.
Proof.
  destruct d as [x|]; cbn; [|split; discriminate].
  rewrite Z.eqb_eq. split; [now intros -> | now intros [= ->]].
Qed.

Lemma roll_over_date (today : date) (c : counters) :
  last_post_date (roll_over today c) = Some today.
Proof.
  unfold roll_over. destruct (same_date (last_post_date c) today) eqn:H.
  - now apply same_date_true.
  - reflexivity.
Qed.

Lemma roll_over_max (today : date) (c : counters) :
  max_posts_per_day (roll_over today c) = max_posts_per_day c.
Proof. unfold roll_over. now destruct (same_date (last_post_date c) today). Qed.

Lemma roll_over_count (today : date) (c : counters) :
  daily_post_count (roll_over today c)
  = if same_date (last_post_date c) today then daily_post_count c else 0.
Proof. unfold roll_over. now destruct (same_date (last_post_date c) today). Qed.

(** The cap is the constant of [__init__] and the counter stays between
    0 and the cap. *)
Lemma reachable_bounds (c : counters) :
  reachable c ->
  max_posts_per_day c = 8 /\ 0 <= daily_post_count c <= max_posts_per_day c.
Proof.
  induction 1 as [|today c Hc [Hmax Hcount]
                  |today today' c Hc [Hmax Hcount] Hok
                  |today c Hc [Hmax Hcount]].
  - cbn. lia.
  - cbn [_can_post_today snd]. rewrite roll_over_max, roll_over_count.
    destruct (same_date (last_post_date c) today); lia.
  - cbn [_can_post_today fst snd] in *. apply Z.ltb_lt in Hok.
    unfold _increment_daily_post_count.
    cbn [max_posts_per_day daily_post_count].
    rewrite !roll_over_max, roll_over_count in *.
    destruct (same_date (last_post_date (roll_over today c)) today');
      rewrite ?roll_over_count;
      destruct (same_date (last_post_date c) today); lia.
  - cbn. lia.
Qed.

(** C4.  A check on [today] first brings the counter to [posts_today]:
    the stored count if the last observed date is [today], and 0
    otherwise; it records [today] and answers true exactly when
    [posts_today < max_posts_per_day].  For a scheduler built by
    [__init__], whatever count [N] was reached on a day [D], the first
    check on day [D + 1] observes 0 and answers true. *)
Theorem can_post_today_spec (today : date) (c : counters) :
  let posts_today :=
    if same_date (last_post_date c) today then daily_post_count c else 0 in
  daily_post_count (snd (_can_post_today today c)) = posts_today
  /\ last_post_date (snd (_can_post_today today c)) = Some today
  /\ max_posts_per_day (snd (_can_post_today today c)) = max_posts_per_day c
  /\ (fst (_can_post_today today c) = true
      <-> posts_today < max_posts_per_day c)
  /\ (forall D N,
        reachable c ->
        last_post_date c = Some D -> daily_post_count c = N ->
        today = D + 1 ->
        daily_post_count (snd (_can_post_today today c)) = 0
        /\ fst (_can_post_today today c) = true).
Proof.
  cbn zeta. cbn [_can_post_today fst snd].
  rewrite roll_over_max, roll_over_count, roll_over_date.
  split; [reflexivity|]. split; [reflexivity|]. split; [reflexivity|].
  split; [apply Z.ltb_lt|].
  intros D N Hreach Hdate _ ->. rewrite Hdate. cbn [same_date].
  replace (D =? D + 1) with false by (symmetry; apply Z.eqb_neq; lia).
  split; [reflexivity|].
  apply Z.ltb_lt. apply reachable_bounds in Hreach. lia.
Qed.

(** Two posts counted on day 5. *)
Definition after_two_posts : counters :=
  _increment_daily_post_count 5
    (snd (_can_post_today 5
       (_increment_daily_post_count 5 (snd (_can_post_today 5 init))))).

Lemma after_two_posts_reachable : reachable after_two_posts.
Proof.
  unfold after_two_posts.
  apply R_increment; [|reflexivity].
  apply R_increment; [|reflexivity].
  apply R_init.
Qed.

Lemma can_post_today_spec_witness :
  daily_post_count after_two_posts = 2
  /\ last_post_date after_two_posts = Some 5
  /\ daily_post_count (snd (_can_post_today 6 after_two_posts)) = 0
  /\ fst (_can_post_today 6 after_two_posts) = true.
Proof.
  split; [reflexivity|]. split; [reflexivity|].
  refine (proj2 (proj2 (proj2 (proj2
    (can_post_today_spec 6 after_two_posts)))) 5 2 _ _ _ _).
  - exact after_two_posts_reachable.
  - reflexivity.
  - reflexivity.
  - reflexivity.
Defined.

End SchedulerFacts.

Module QueueDrainFacts.

Import Database Scheduler SchedulerFacts.

Local Open Scope Z_scope.

Section Drain.

Variable clock : nat -> timestamp.
Variable post_content : list str -> str -> option str.

Lemma check_gate_eq (w : world) :
  check_gate clock w
  = (fst (_can_post_today (date_of (clock (tick w))) (gate w)),
     {| gate := snd (_can_post_today (date_of (clock (tick w))) (gate w));
        db := db w; tick := S (tick w); submitted := submitted w |}).
Proof. reflexivity. Qed.

Lemma post_item_submitted (w : world) (item : queue_row) :
  submitted (post_item clock post_content w item) = submitted w ++ [cq_content item].
Proof.
  unfold post_item.
  destruct (post_content (submitted w) (cq_content item)) as [[|c t]|];
    reflexivity.
Qed.

(** An item is only counted right after a passed check. *)
Lemma post_item_reachable (w : world) (item : queue_row) (today : date)
    (c : counters) :
  reachable c ->
  gate w = snd (_can_post_today today c) ->
  fst (_can_post_today today c) = true ->
  reachable (gate (post_item clock post_content w item)).
Proof.
  intros Hc Hgate Hok. unfold post_item.
  destruct (post_content (submitted w) (cq_content item)) as [[|ch t]|];
    cbn [gate]; rewrite Hgate.
  - now apply R_check.
  - now apply R_increment.
  - now apply R_check.
Qed.

(** One pass of the loop: it submits the items of a prefix of the
    pending list, in order, and it leaves the rest unsubmitted only when
    a check found the counter at the cap. *)
Lemma drain_prefix (pending_content : list queue_row) :
  forall w,
    reachable (gate w) ->
    reachable (gate (drain clock post_content w pending_content))
    /\ exists done rest,
         pending_content = done ++ rest
         /\ submitted (drain clock post_content w pending_content)
            = submitted w ++ map cq_content done
         /\ (rest <> [] ->
             daily_post_count (gate (drain clock post_content w pending_content))
             = max_posts_per_day (gate (drain clock post_content w pending_content))).
Proof.
  induction pending_content as [|item rest IH]; intros w Hw.
  - cbn [drain]. split; [exact Hw|].
    exists [], []. cbn. rewrite app_nil_r. repeat split. congruence.
  - cbn [drain]. rewrite check_gate_eq.
    set (today := date_of (clock (tick w))).
    destruct (fst (_can_post_today today (gate w))) eqn:Hok.
    + set (w1 := {| gate := snd (_can_post_today today (gate w));
                    db := db w; tick := S (tick w);
                    submitted := submitted w |}).
      assert (Hw2 : reachable (gate (post_item clock post_content w1 item)))
        by (apply post_item_reachable with today (gate w); auto).
      destruct (IH (post_item clock post_content w1 item) Hw2)
        as (Hreach & done & rest' & Hsplit & Hsub & Hcap).
      split; [exact Hreach|].
      exists (item :: done), rest'. split; [now rewrite Hsplit|].
      split; [|exact Hcap].
      rewrite Hsub, post_item_submitted. cbn [map submitted w1].
      now rewrite <- app_assoc.
    + cbn [gate submitted].
      assert (Hw1 : reachable (snd (_can_post_today today (gate w))))
        by now apply R_check.
      split; [exact Hw1|].
      exists [], (item :: rest). cbn [map app]. rewrite app_nil_r.
      repeat split. intros _.
      apply reachable_bounds in Hw1.
      cbn [_can_post_today fst snd] in *. apply Z.ltb_ge in Hok. lia.
Qed.

(** When every item of [done] was submitted, the pass over
    [done ++ rest] continues from the state reached after [done]. *)
Lemma drain_app (done : list queue_row) :
  forall w rest,
    length (submitted (drain clock post_content w done))
    = (length (submitted w) + length done)%nat ->
    drain clock post_content w (done ++ rest)
    = drain clock post_content (drain clock post_content w done) rest.
Proof.
  induction done as [|item done IH]; intros w rest Hfull;
    [reflexivity|].
  cbn [app drain length] in *. rewrite check_gate_eq in *.
  destruct (fst (_can_post_today (date_of (clock (tick w))) (gate w))).
  - apply IH. rewrite Hfull, post_item_submitted, length_app.
    cbn [submitted length]. lia.
  - cbn [submitted] in Hfull. lia.
Qed.

(** C5.  In one sequential pass over the pending items, starting from a
    scheduler built by [__init__]:
    - the gate is checked before each item: when the items of [done]
      have all been submitted and the check before the next item finds
      the cap reached, neither that item nor any later one reaches the
      publisher, and the store stays as it was;
    - hence the pass submits a prefix of the pending items and stops
      early only with the counter at [max_posts_per_day];
    - the counter of publishes of the day never exceeds
      [max_posts_per_day], after [drain] and after the whole of
      [_process_content_queue]. *)
Theorem queue_drain_respects_daily_cap
    (w : world) (pending_content : list queue_row) :
  reachable (gate w) ->
  (forall done item rest,
      pending_content = done ++ item :: rest ->
      length (submitted (drain clock post_content w done))
      = (length (submitted w) + length done)%nat ->
      fst (check_gate clock (drain clock post_content w done)) = false ->
      submitted (drain clock post_content w pending_content)
      = submitted (drain clock post_content w done)
      /\ db (drain clock post_content w pending_content)
         = db (drain clock post_content w done))
  /\ (exists done rest,
        pending_content = done ++ rest
        /\ submitted (drain clock post_content w pending_content)
           = submitted w ++ map cq_content done
        /\ (rest <> [] ->
            daily_post_count (gate (drain clock post_content w pending_content))
            = max_posts_per_day (gate (drain clock post_content w pending_content))))
  /\ daily_post_count (gate (drain clock post_content w pending_content))
     <= max_posts_per_day (gate (drain clock post_content w pending_content))
  /\ daily_post_count (gate (_process_content_queue clock post_content w))
     <= max_posts_per_day (gate (_process_content_queue clock post_content w)).
Proof.
  intros Hw.
  destruct (drain_prefix pending_content w Hw) as [Hreach Hprefix].
  split; [|split; [exact Hprefix | split]].
  - intros done item rest -> Hfull Hclosed.
    rewrite (drain_app done w (item :: rest) Hfull).
    cbn [drain]. rewrite check_gate_eq in *. cbn [fst] in Hclosed.
    rewrite Hclosed. split; reflexivity.
  - apply reachable_bounds in Hreach. lia.
  - unfold _process_content_queue. rewrite check_gate_eq.
    set (today := date_of (clock (tick w))).
    assert (Hw1 : reachable (snd (_can_post_today today (gate w))))
      by now apply R_check.
    destruct (fst (_can_post_today today (gate w))).
    + cbn [gate db tick submitted].
      match goal with
      | |- context [drain _ _ ?w0 ?l] =>
          destruct (drain_prefix l w0 Hw1) as [Hr _]
      end.
      apply reachable_bounds in Hr. lia.
    + cbn [gate]. apply reachable_bounds in Hw1. lia.
Qed.

End Drain.

(** ** A pass that reaches the cap *)

Definition noon (day : Z) : timestamp := day * DAY + 43200.

(** A clock that stays on day 5. *)
Definition day5 (n : nat) : timestamp := noon 5 + Z.of_nat n.

(** A publisher that confirms everything. *)
Definition always_confirms (history : list str) (content : str)
  : option str := Some (lit "1001").

Definition item (id : Z) (content : string) : queue_row :=
  {| cq_id := id; cq_project_id := 1; cq_content := lit content;
     cq_content_type := lit "analysis"; scheduled_time := noon 5;
     status := pending; created_date := noon 5 |}.

(** A passed check followed by a counted post, on one day. *)
Definition counted_post (today : date) (c : counters) : counters :=
  _increment_daily_post_count today (snd (_can_post_today today c)).

(** Seven posts already counted on day 5. *)
Definition seven_posted : counters :=
  counted_post 5 (counted_post 5 (counted_post 5 (counted_post 5
    (counted_post 5 (counted_post 5 (counted_post 5 init)))))).

Lemma seven_posted_value :
  seven_posted = {| max_posts_per_day := 8; daily_post_count := 7;
                    last_post_date := Some 5 |}.
Proof. reflexivity. Qed.

Lemma seven_posted_reachable : reachable seven_posted.
Proof.
  unfold seven_posted, counted_post.
  repeat (apply R_increment; [|reflexivity]).
  apply R_init.
Qed.

Definition before_pass : world :=
  {| gate := seven_posted;
     db := {| projects := []; posted_content := [];
              content_queue := [item 1 "first pending item";
                                item 2 "second pending item"];
              next_posted_id := 1; next_queue_id := 3 |};
     tick := 0;
     submitted := [] |}.

Definition two_pending : list queue_row :=
  [item 1 "first pending item"; item 2 "second pending item"].

(** With seven posts counted, the first pending item is published and
    brings the counter to the cap; the check before the second item fails
    and the second item is not submitted. *)
Lemma queue_drain_respects_daily_cap_witness :
  submitted (drain day5 always_confirms before_pass two_pending)
  = [lit "first pending item"]
  /\ daily_post_count
       (gate (drain day5 always_confirms before_pass two_pending)) = 8
  /\ submitted (drain day5 always_confirms before_pass two_pending)
     = submitted (drain day5 always_confirms before_pass
                    [item 1 "first pending item"]).
Proof.
  split; [reflexivity|]. split; [reflexivity|].
  refine (proj1 (proj1
    (queue_drain_respects_daily_cap day5 always_confirms before_pass
       two_pending seven_posted_reachable)
    [item 1 "first pending item"] (item 2 "second pending item") []
    _ _ _)).
  - reflexivity.
  - reflexivity.
  - reflexivity.
Defined.

End QueueDrainFacts.

(* ================================================================== *)
(** * Further properties of content_generator.py *)
(* ================================================================== *)

Module ContentGeneratorProperties.

Import ContentGenerator ContentGeneratorFacts.

(** X1.  [_truncate_tweet] never returns more than 280 characters; for an
    input over 280 characters the result is a body of at most 277
    characters followed by the ellipsis. *)
Theorem truncate_tweet_fits (tweet : str) :
  length (_truncate_tweet tweet) <= 280
  /\ (280 < length tweet ->
      exists body,
        _truncate_tweet tweet = body ++ lit "..." /\ length body <= 277).
Proof.
  split.
  - apply truncate_tweet_length.
  - apply truncate_tweet_ellipsis.
Qed.

(** X2.  Truncating twice is truncating once. *)
Theorem truncate_tweet_twice (tweet : str) :
  _truncate_tweet (_truncate_tweet tweet) = _truncate_tweet tweet.
Proof. apply truncate_tweet_short, truncate_tweet_length. Qed.

Lemma validate_tweets_sublength (tweets : list str) :
  length (validate_tweets tweets) <= length tweets.
Proof.
  induction tweets as [|t rest IH]; cbn [validate_tweets length]; [lia|].
  destruct (validate_tweet t); cbn [length]; lia.
Qed.

(** X3.  The validation loop keeps or drops tweets, never adds one, and
    every tweet it keeps has between 50 and 280 characters. *)
Theorem validated_tweets_within_limits (tweets : list str) :
  length (validate_tweets tweets) <= length tweets
  /\ Forall (fun t => 50 <= length t <= 280) (validate_tweets tweets).
Proof.
  split; [apply validate_tweets_sublength | apply validate_tweets_bounds].
Qed.

Lemma join_length_first (sep x : str) (l : list str) :
  length x <= length (join sep (x :: l)).
Proof.
  destruct l as [|y l]; cbn [join]; [lia|].
  rewrite length_app. lia.
Qed.

Lemma number_tweets_length (validated : list str) :
  forall i total, length (number_tweets i total validated) = length validated.
Proof.
  induction validated as [|t rest IH]; intros i total;
    cbn [number_tweets length]; [reflexivity | now rewrite IH].
Qed.

Lemma number_tweets_floor (validated : list str) :
  forall i total,
    Forall (fun t => 50 <= length t) validated ->
    Forall (fun seg => 50 <= length seg) (number_tweets i total validated).
Proof.
  induction validated as [|t rest IH]; intros i total Hall;
    cbn [number_tweets]; [constructor|].
  inversion Hall as [|? ? Ht Hrest]; subst.
  constructor; [|now apply IH].
  destruct (i =? 1); rewrite !length_app; lia.
Qed.

Lemma output_segments_length (validated : list str) :
  length (output_segments validated) = length validated.
Proof.
  destruct validated as [|t [|t' rest]]; cbn [output_segments];
    [reflexivity | reflexivity | apply number_tweets_length].
Qed.

Lemma output_segments_floor (validated : list str) :
  Forall (fun t => 50 <= length t) validated ->
  Forall (fun seg => 50 <= length seg) (output_segments validated).
Proof.
  intros Hall.
  destruct validated as [|t [|t' rest]]; cbn [output_segments];
    [constructor | exact Hall | now apply number_tweets_floor].
Qed.

Lemma validated_of_floor (content : str) :
  Forall (fun t => 50 <= length t) (validated_of content).
Proof.
  unfold validated_of.
  eapply Forall_impl; [|apply validate_tweets_bounds].
  cbn. intros t Ht. lia.
Qed.

(** X4.  Whatever the model answers, content that [generate_content]
    returns is the blank-line join of one segment per validated tweet, each
    segment has at least 50 characters, and so has the content as a whole:
    an empty or trivial text is never handed on. *)
Theorem generated_content_substantial
    (r : model_outcome) (content : str) :
  generate_content r = Some content ->
  exists text,
    r = ModelText text
    /\ content = join [NL; NL] (output_segments (validated_of text))
    /\ length (output_segments (validated_of text))
       = length (validated_of text)
    /\ Forall (fun seg => 50 <= length seg)
         (output_segments (validated_of text))
    /\ 50 <= length content.
Proof.
  destruct r as [| |text]; cbn [generate_content]; try discriminate.
  destruct text as [|c text]; [discriminate|].
  unfold _clean_and_validate_content.
  destruct (validated_of (c :: text)) as [|t rest] eqn:Hv; [discriminate|].
  pose proof (validated_of_floor (c :: text)) as Hfloor. rewrite Hv in Hfloor.
  pose proof (output_segments_floor (t :: rest) Hfloor) as Hsegs.
  pose proof (output_segments_length (t :: rest)) as Hcount.
  remember (output_segments (t :: rest)) as segments eqn:Hout.
  intros Hsome. injection Hsome as <-.
  exists (c :: text). rewrite Hv, <- Hout.
  repeat split; try assumption.
  destruct segments as [|seg segs]; [discriminate|].
  inversion Hsegs; subst.
  pose proof (join_length_first [NL; NL] seg segs). lia.
Qed.

(** A paragraph of 60 letters, as the model's whole answer. *)
Definition short_answer : str := concat (repeat (lit "a") 60).

Lemma generated_content_substantial_witness :
  generate_content (ModelText short_answer) = Some short_answer
  /\ 50 <= length short_answer.
Proof.
  assert (H : generate_content (ModelText short_answer) = Some short_answer)
    by (vm_compute; reflexivity).
  split; [exact H|].
  destruct (generated_content_substantial (ModelText short_answer)
              short_answer H) as (text & _ & _ & _ & _ & Hlen).
  exact Hlen.
Defined.

(** The greedy packing loop: a tweet it emits is never empty, and it is
    longer than 280 characters only if it is one of the sentences on its
    own. *)
Lemma pack_sentences_shape (all sentences : list str) :
  forall current_tweet,
    incl sentences all ->
    (current_tweet = [] \/ length current_tweet <= 280 \/ In current_tweet all) ->
    Forall (fun t => t <> [] /\ (length t <= 280 \/ In t all))
      (pack_sentences current_tweet sentences).
Proof.
  induction sentences as [|s rest IH]; intros current Hincl Hcur;
    cbn [pack_sentences].
  - destruct current as [|c current]; constructor; [|constructor].
    split; [discriminate|]. destruct Hcur as [H|H]; [discriminate | exact H].
  - assert (Hrest : incl rest all) by (intros x Hx; apply Hincl; now right).
    assert (Hs : In s all) by (apply Hincl; now left).
    destruct (length (current ++ lit " " ++ s) <=? 280) eqn:Hfit.
    + apply IH; [exact Hrest|]. right. left.
      apply Nat.leb_le in Hfit.
      pose proof (append_piece_length current s). lia.
    + destruct current as [|c current].
      * apply IH; [exact Hrest | right; right; exact Hs].
      * constructor.
        -- split; [discriminate|].
           destruct Hcur as [H|H]; [discriminate | exact H].
        -- apply IH; [exact Hrest | right; right; exact Hs].
Qed.

(** X5.  [_split_into_tweets] never produces an empty tweet, and a tweet
    longer than 280 characters is always a single sentence of one of the
    paragraphs: packing sentences together never exceeds the limit. *)
Theorem split_into_tweets_shape (content : str) :
  Forall
    (fun t =>
       t <> []
       /\ (length t <= 280
           \/ exists paragraph,
                In paragraph (split [NL; NL] content)
                /\ In t (re_split_sentences (strip paragraph))))
    (_split_into_tweets content).
Proof.
  unfold _split_into_tweets.
  apply Forall_forall. intros t Ht.
  apply in_flat_map in Ht as (paragraph & Hpar & Ht).
  unfold tweets_of_paragraph in Ht.
  destruct (strip paragraph) as [|c p] eqn:Hstrip; [destruct Ht|].
  destruct (length (c :: p) <=? 280) eqn:Hshort.
  - destruct Ht as [<-|[]]. split; [discriminate|].
    left. now apply Nat.leb_le.
  - pose proof (pack_sentences_shape (re_split_sentences (c :: p))
                  (re_split_sentences (c :: p)) []
                  (incl_refl _) (or_introl eq_refl)) as Hall.
    rewrite Forall_forall in Hall. destruct (Hall t Ht) as [Hne Hlen].
    split; [exact Hne|].
    destruct Hlen as [Hlen|Hin]; [now left|].
    right. exists paragraph. rewrite Hstrip. now split.
Qed.

End ContentGeneratorProperties.

(* ================================================================== *)
(** * Properties of utils.py *)
(* ================================================================== *)

Module UtilsProperties.

Import ContentGenerator ContentGeneratorFacts Utils.

Local Open Scope Z_scope.

Lemma len_app (a b : str) : len (a ++ b) = len a + len b.
Proof. unfold len. rewrite length_app. lia. Qed.

Lemma take_fitting_suffix_default (pieces : list str) :
  forall truncated,
    take_fitting_suffix 280 (lit "...") truncated pieces
    = take_fitting 277 truncated pieces.
Proof.
  induction pieces as [|p rest IH]; intros truncated;
    cbn [take_fitting_suffix take_fitting]; [reflexivity|].
  replace (len (truncated ++ lit " " ++ p ++ lit "...") <=? 280)
    with (length (truncated ++ lit " " ++ p) <=? 277)%nat.
  - destruct (length (truncated ++ lit " " ++ p) <=? 277)%nat;
      [apply IH | reflexivity].
  - unfold len. rewrite !length_app. cbn [length lit map list_ascii_of_string].
    destruct (Nat.leb_spec (length truncated + (1 + length p)) 277);
      symmetry; [apply Z.leb_le | apply Z.leb_gt]; lia.
Qed.

(** X6.  With its default arguments, [utils.truncate_text_smart] returns
    on every text exactly what [ContentGenerator._truncate_tweet]
    returns. *)
Theorem truncate_text_smart_default (text : str) :
  truncate_text_smart text 280 (lit "...") = _truncate_tweet text.
Proof.
  unfold truncate_text_smart, _truncate_tweet.
  rewrite !take_fitting_suffix_default.
  replace (len text <=? 280) with (length text <=? 280)%nat.
  - destruct (length text <=? 280)%nat; [reflexivity|].
    destruct (take_fitting 277 [] (re_split_sentences text)); [|reflexivity].
    destruct (take_fitting 277 [] (split_ws text)); reflexivity.
  - unfold len. destruct (Nat.leb_spec (length text) 280);
      symmetry; [apply Z.leb_le | apply Z.leb_gt]; lia.
Qed.

Lemma take_fitting_suffix_room (max_length : Z) (suffix : str)
    (pieces : list str) :
  forall truncated,
    (truncated = [] \/ len truncated + len suffix <= max_length) ->
    take_fitting_suffix max_length suffix truncated pieces = []
    \/ len (take_fitting_suffix max_length suffix truncated pieces)
       + len suffix <= max_length.
Proof.
  induction pieces as [|p rest IH]; intros truncated Hroom;
    cbn [take_fitting_suffix]; [exact Hroom|].
  destruct (len (truncated ++ lit " " ++ p ++ suffix) <=? max_length) eqn:Hfit;
    [|exact Hroom].
  apply IH. right. apply Z.leb_le in Hfit.
  pose proof (append_piece_length truncated p) as Hlen.
  rewrite !len_app in Hfit. unfold len in *.
  rewrite !length_app in Hlen. lia.
Qed.

(** X7.  When the suffix itself fits in [max_length],
    [truncate_text_smart] never returns more than [max_length]
    characters. *)
Theorem truncate_text_smart_fits (text : str) (max_length : Z) (suffix : str) :
  len suffix <= max_length ->
  len (truncate_text_smart text max_length suffix) <= max_length.
Proof.
  intros Hsuffix. unfold truncate_text_smart.
  destruct (len text <=? max_length) eqn:Hshort; [now apply Z.leb_le|].
  pose proof (take_fitting_suffix_room max_length suffix
                (re_split_sentences text) [] (or_introl eq_refl)) as Hs.
  pose proof (take_fitting_suffix_room max_length suffix
                (split_ws text) [] (or_introl eq_refl)) as Hw.
  destruct (take_fitting_suffix max_length suffix [] (re_split_sentences text))
    as [|c s].
  - destruct (take_fitting_suffix max_length suffix [] (split_ws text))
      as [|c w].
    + rewrite len_app. unfold slice_to.
      replace (max_length - len suffix <? 0) with false
        by (symmetry; apply Z.ltb_ge; lia).
      unfold len at 1. rewrite length_firstn. lia.
    + destruct Hw as [Hw|Hw]; [discriminate|]. rewrite len_app. lia.
  - destruct Hs as [Hs|Hs]; [discriminate|]. rewrite len_app. lia.
Qed.

Lemma truncate_text_smart_fits_witness :
  len (lit "...") <= 20
  /\ truncate_text_smart (lit "Hello world. This is it. More here") 20 (lit "...")
     = lit "Hello world...."
  /\ len (truncate_text_smart (lit "Hello world. This is it. More here") 20
            (lit "...")) <= 20.
Proof.
  assert (H : len (lit "...") <= 20) by (vm_compute; discriminate).
  split; [exact H|]. split; [reflexivity|].
  exact (truncate_text_smart_fits
           (lit "Hello world. This is it. More here") 20 (lit "...") H).
Defined.

(** ** [sanitize_filename] *)

Definition safe_char (c : char) : Prop :=
  is_unsafe c = false /\ isspace c = false.

Lemma underscore_safe : safe_char UNDERSCORE.
Proof. split; reflexivity. Qed.

Lemma replace_ws_runs_safe (s : str) :
  forall in_run,
    Forall (fun c => is_unsafe c = false) s ->
    Forall safe_char (replace_ws_runs [UNDERSCORE] in_run s).
Proof.
  induction s as [|c rest IH]; intros in_run Hall; cbn [replace_ws_runs];
    [constructor|].
  inversion Hall as [|? ? Hc Hrest]; subst.
  destruct (isspace c) eqn:Hws.
  - destruct in_run; [now apply IH|].
    cbn [app]. constructor; [apply underscore_safe | now apply IH].
  - constructor; [now split | now apply IH].
Qed.

Lemma replace_ws_runs_no_ws (rep s : str) :
  forall in_run,
    Forall (fun c => isspace c = false) s ->
    replace_ws_runs rep in_run s = s.
Proof.
  induction s as [|c rest IH]; intros in_run Hall; cbn [replace_ws_runs];
    [reflexivity|].
  inversion Hall as [|? ? Hc Hrest]; subst.
  rewrite Hc. f_equal. now apply IH.
Qed.

Lemma map_unsafe_clears (s : str) :
  Forall (fun c => is_unsafe c = false)
    (map (fun c => if is_unsafe c then UNDERSCORE else c) s).
Proof.
  induction s as [|c rest IH]; cbn [map]; constructor; [|exact IH].
  destruct (is_unsafe c) eqn:Hc; [reflexivity | exact Hc].
Qed.

Lemma map_unsafe_id (s : str) :
  Forall (fun c => is_unsafe c = false) s ->
  map (fun c => if is_unsafe c then UNDERSCORE else c) s = s.
Proof.
  induction 1 as [|c rest Hc _ IH]; cbn [map]; [reflexivity|].
  now rewrite Hc, IH.
Qed.

Lemma Forall_firstn {A : Type} (P : A -> Prop) (n : nat) (l : list A) :
  Forall P l -> Forall P (firstn n l).
Proof.
  intros Hall. apply Forall_forall. intros x Hx.
  rewrite Forall_forall in Hall. apply Hall.
  rewrite <- (firstn_skipn n l). apply in_or_app. now left.
Qed.

Lemma sanitize_filename_safe (filename : str) :
  (length (sanitize_filename filename) <= 200)%nat
  /\ Forall safe_char (sanitize_filename filename).
Proof.
  unfold sanitize_filename.
  set (mapped := map (fun c => if is_unsafe c then UNDERSCORE else c) filename).
  pose proof (replace_ws_runs_safe mapped false (map_unsafe_clears filename))
    as Hsafe.
  destruct (200 <? length (replace_ws_runs [UNDERSCORE] false mapped))%nat
    eqn:Hlong.
  - split; [rewrite length_firstn; lia | now apply Forall_firstn].
  - apply Nat.ltb_ge in Hlong. now split.
Qed.

(** X8.  [sanitize_filename] returns at most 200 characters, none of them
    whitespace or one of the nine characters it replaces, and sanitizing its
    result again changes nothing. *)
Theorem sanitize_filename_clean (filename : str) :
  (length (sanitize_filename filename) <= 200)%nat
  /\ Forall (fun c => is_unsafe c = false /\ isspace c = false)
       (sanitize_filename filename)
  /\ sanitize_filename (sanitize_filename filename)
     = sanitize_filename filename.
Proof.
  destruct (sanitize_filename_safe filename) as [Hlen Hsafe].
  split; [exact Hlen|]. split; [exact Hsafe|].
  set (r := sanitize_filename filename) in *.
  unfold sanitize_filename at 1.
  rewrite map_unsafe_id
    by (eapply Forall_impl; [|exact Hsafe]; now intros c [? ?]).
  rewrite replace_ws_runs_no_ws
    by (eapply Forall_impl; [|exact Hsafe]; now intros c [? ?]).
  apply Nat.leb_le in Hlen.
  replace (200 <? length r)%nat with false; [reflexivity|].
  symmetry. apply Nat.ltb_ge. now apply Nat.leb_le.
Qed.

End UtilsProperties.

(* ================================================================== *)
(** * From the generator to the publisher *)
(* ================================================================== *)

Module ThreadHandOver.

Import ContentGenerator TwitterClient.

(** Some character of [s] is not whitespace. *)
Definition nonblank (s : str) : bool := existsb (fun c => negb (isspace c)) s.

Lemma nonblank_app (a b : str) : nonblank (a ++ b) = nonblank a || nonblank b.
Proof. apply existsb_app. Qed.

Lemma nonblank_rev (s : str) : nonblank (rev s) = nonblank s.
Proof.
  unfold nonblank. apply eq_true_iff_eq. rewrite !existsb_exists.
  split; intros (c & Hin & Hc); exists c; split; try assumption;
    [now apply in_rev | now apply in_rev in Hin].
Qed.

Lemma lstrip_nonblank (s : str) : nonblank (lstrip s) = nonblank s.
Proof.
  induction s as [|c rest IH]; [reflexivity|]. cbn [lstrip].
  destruct (isspace c) eqn:Hc; [|reflexivity].
  rewrite IH. cbn [nonblank existsb]. now rewrite Hc.
Qed.

Lemma lstrip_nil_blank (s : str) : lstrip s = [] <-> nonblank s = false.
Proof.
  induction s as [|c rest IH]; [now split|]. cbn [lstrip nonblank existsb].
  destruct (isspace c) eqn:Hc; cbn [negb orb]; [exact IH|].
  split; discriminate.
Qed.

Lemma is_blank_nonblank (p : str) : negb (is_blank p) = nonblank p.
Proof.
  unfold is_blank, strip, rstrip.
  destruct (nonblank p) eqn:Hp.
  - destruct (rev (lstrip (rev (lstrip p)))) as [|c r] eqn:Hs; [|reflexivity].
    apply (f_equal (@rev char)) in Hs. rewrite rev_involutive in Hs. cbn in Hs.
    apply lstrip_nil_blank in Hs.
    rewrite nonblank_rev, lstrip_nonblank in Hs. congruence.
  - assert (Hnil : lstrip (rev (lstrip p)) = [])
      by (apply lstrip_nil_blank; now rewrite nonblank_rev, lstrip_nonblank).
    now rewrite Hnil.
Qed.

(** The number of paragraphs with something in them. *)
Definition count_nonblank (l : list str) : nat := length (filter nonblank l).

Lemma split_go_separator (cur tail : str) :
  split_go [NL; NL] 0 cur (NL :: NL :: tail)
  = rev cur :: split_go [NL; NL] 0 [] tail.
Proof. reflexivity. Qed.

Lemma split_go_step (cur : str) (c : char) (rest : str) :
  starts_with [NL; NL] (c :: rest) = false ->
  split_go [NL; NL] 0 cur (c :: rest) = split_go [NL; NL] 0 (c :: cur) rest.
Proof. intros H. cbn [split_go]. now rewrite H. Qed.

Lemma starts_with_separator (s : str) :
  starts_with [NL; NL] s = true -> exists tail, s = NL :: NL :: tail.
Proof.
  destruct s as [|a [|b tail]]; cbn [starts_with]; try discriminate.
  - rewrite andb_false_r. discriminate.
  - rewrite andb_true_r. intros H. apply andb_prop in H as [Ha Hb].
    apply N.eqb_eq in Ha, Hb. subst. now exists tail.
Qed.

Lemma count_nonblank_cons (x : str) (l : list str) :
  count_nonblank (x :: l)
  = (if nonblank x then 1 else 0) + count_nonblank l.
Proof. unfold count_nonblank. cbn [filter]. now destruct (nonblank x). Qed.

(** A text with something in it has a paragraph with something in it. *)
Lemma split_one_nonblank (n : nat) :
  forall s cur,
    length s <= n ->
    nonblank cur || nonblank s = true ->
    1 <= count_nonblank (split_go [NL; NL] 0 cur s).
Proof.
  induction n as [|n IH]; intros s cur Hlen Hnb.
  - destruct s; [|cbn in Hlen; lia].
    cbn [split_go]. rewrite count_nonblank_cons, nonblank_rev.
    cbn [nonblank existsb] in Hnb. rewrite orb_false_r in Hnb.
    fold (nonblank cur) in Hnb. rewrite Hnb. lia.
  - destruct s as [|c rest].
    + cbn [split_go]. rewrite count_nonblank_cons, nonblank_rev.
      change (nonblank []) with false in Hnb. rewrite orb_false_r in Hnb.
      rewrite Hnb. lia.
    + destruct (starts_with [NL; NL] (c :: rest)) eqn:Hsep.
      * apply starts_with_separator in Hsep as [tail Heq].
        rewrite Heq, split_go_separator, count_nonblank_cons, nonblank_rev.
        destruct (nonblank cur) eqn:Hcur; [lia|].
        rewrite Heq in Hnb, Hlen. cbn [length] in Hlen.
        assert (1 <= count_nonblank (split_go [NL; NL] 0 [] tail)); [|lia].
        apply IH; [lia|]. exact Hnb.
      * rewrite split_go_step by exact Hsep.
        apply IH; [cbn [length] in Hlen; lia|].
        cbn [nonblank existsb] in *. fold (nonblank cur) (nonblank rest) in *.
        destruct (isspace c), (nonblank cur), (nonblank rest);
          cbn in *; congruence.
Qed.

(** Two texts with something in them, joined by a blank line, give at
    least two paragraphs with something in them. *)
Lemma split_two_nonblank (n : nat) :
  forall a cur b,
    length a <= n ->
    nonblank cur || nonblank a = true ->
    nonblank b = true ->
    2 <= count_nonblank (split_go [NL; NL] 0 cur (a ++ NL :: NL :: b)).
Proof.
  induction n as [|n IH]; intros a cur b Hlen Ha Hb.
  - destruct a; [|cbn in Hlen; lia].
    cbn [app]. rewrite split_go_separator, count_nonblank_cons, nonblank_rev.
    change (nonblank []) with false in Ha. rewrite orb_false_r in Ha.
    rewrite Ha.
    pose proof (split_one_nonblank (length b) b [] (le_n _)) as H1.
    cbn [orb] in H1. change (nonblank []) with false in H1.
    specialize (H1 Hb). lia.
  - destruct a as [|c a'].
    + cbn [app]. rewrite split_go_separator, count_nonblank_cons, nonblank_rev.
      change (nonblank []) with false in Ha. rewrite orb_false_r in Ha.
      rewrite Ha.
      pose proof (split_one_nonblank (length b) b [] (le_n _)) as H1.
      change (nonblank []) with false in H1. specialize (H1 Hb). lia.
    + cbn [length] in Hlen. cbn [app].
      destruct (starts_with [NL; NL] (c :: a' ++ NL :: NL :: b)) eqn:Hsep.
      * apply starts_with_separator in Hsep as [tail Heq].
        injection Heq as -> Htail.
        destruct a' as [|c' a''].
        -- cbn [app] in Htail |- *. injection Htail as <-.
           rewrite split_go_separator, count_nonblank_cons, nonblank_rev.
           assert (Hcur : nonblank cur = true).
           { destruct (nonblank cur); [reflexivity|]. cbn in Ha. discriminate. }
           rewrite Hcur.
           pose proof (split_one_nonblank (length (NL :: b)) (NL :: b) []
                         (le_n _)) as H1.
           change (nonblank []) with false in H1.
           assert (nonblank (NL :: b) = true) by exact Hb.
           specialize (H1 H). lia.
        -- cbn [app] in Htail |- *. injection Htail as -> <-.
           rewrite split_go_separator, count_nonblank_cons, nonblank_rev.
           destruct (nonblank cur) eqn:Hcur.
           ++ pose proof (split_one_nonblank
                            (length (a'' ++ NL :: NL :: b))
                            (a'' ++ NL :: NL :: b) [] (le_n _)) as H1.
              change (nonblank []) with false in H1.
              assert (nonblank (a'' ++ NL :: NL :: b) = true).
              { rewrite nonblank_app.
                change (nonblank (NL :: NL :: b)) with (nonblank b).
                rewrite Hb. apply orb_true_r. }
              specialize (H1 H). lia.
           ++ assert (2 <= count_nonblank
                        (split_go [NL; NL] 0 [] (a'' ++ NL :: NL :: b)));
                [|lia].
              apply IH; [cbn [length] in Hlen; lia | | exact Hb].
              exact Ha.
      * rewrite split_go_step by exact Hsep.
        apply IH; [lia | | exact Hb].
        cbn [nonblank existsb] in *. fold (nonblank cur) (nonblank a') in *.
        destruct (isspace c), (nonblank cur), (nonblank a');
          cbn in *; congruence.
Qed.

Lemma paragraphs_count (content : str) :
  length (paragraphs content) = count_nonblank (split [NL; NL] content).
Proof.
  unfold paragraphs, count_nonblank. rewrite length_map. f_equal.
  apply filter_ext. intros p. apply is_blank_nonblank.
Qed.

Lemma join_cons_nonblank (sep x : str) (l : list str) :
  nonblank x = true -> nonblank (join sep (x :: l)) = true.
Proof.
  intros Hx. destruct l as [|y l]; cbn [join]; [exact Hx|].
  rewrite nonblank_app, Hx. reflexivity.
Qed.

(** X9.  Whenever two or more tweets survive validation, the text the
    generator returns is classified as a thread by the publisher: it splits
    into more than one non-blank paragraph, whatever the tweets contain and
    whichever glyph the classifier looks for. *)
Theorem generated_thread_is_thread (isdigit : char -> bool) (content : str) :
  2 <= length (validated_of content) ->
  exists out,
    _clean_and_validate_content content = Some out
    /\ 1 < length (paragraphs out)
    /\ _is_thread_content isdigit out = true.
Proof.
  intros Htwo.
  destruct content as [|c text]; [vm_compute in Htwo; lia|].
  unfold _clean_and_validate_content.
  destruct (validated_of (c :: text)) as [|t1 [|t2 rest]] eqn:Hv;
    try (cbn in Htwo; lia).
  eexists. split; [reflexivity|].
  assert (Hpar : 1 < length
            (paragraphs (join [NL; NL] (output_segments (t1 :: t2 :: rest))))).
  { rewrite paragraphs_count. unfold split.
    cbn [output_segments number_tweets Nat.eqb].
    set (seg1 := t1 ++ lit " " ++ thread_suffix_glyph).
    match goal with
    | |- context [join _ (seg1 :: ?seg2 :: ?more)] =>
        change (join [NL; NL] (seg1 :: seg2 :: more))
          with (seg1 ++ NL :: NL :: join [NL; NL] (seg2 :: more));
        assert (Hb : nonblank (join [NL; NL] (seg2 :: more)) = true)
    end.
    { apply join_cons_nonblank. reflexivity. }
    apply (split_two_nonblank (length seg1)); [lia | | exact Hb].
    unfold seg1. rewrite nonblank_app.
    replace (nonblank (lit " " ++ thread_suffix_glyph)) with true
      by reflexivity.
    apply orb_true_r. }
  split; [exact Hpar|].
  unfold _is_thread_content.
  destruct (contains [SLASH] _ && existsb isdigit _); [reflexivity|].
  apply Nat.ltb_lt in Hpar. now rewrite Hpar.
Qed.

Lemma generated_thread_is_thread_witness :
  2 <= length (validated_of ContentGeneratorBoundaryCases.two_paragraphs)
  /\ exists out,
       _clean_and_validate_content ContentGeneratorBoundaryCases.two_paragraphs
       = Some out
       /\ 1 < length (paragraphs out)
       /\ _is_thread_content (fun _ => false) out = true.
Proof.
  assert (H : 2 <= length
                (validated_of ContentGeneratorBoundaryCases.two_paragraphs))
    by (vm_compute; lia).
  split; [exact H|].
  exact (generated_thread_is_thread (fun _ => false)
           ContentGeneratorBoundaryCases.two_paragraphs H).
Defined.

End ThreadHandOver.

(* ================================================================== *)
(** * Further properties of twitter_client.py *)
(* ================================================================== *)

Module TwitterPostingProperties.

Import TwitterClient TwitterPosting TwitterClientFacts.

(** A text as the platform accepts it. *)
Definition postable (c : api_call * api_response) : Prop :=
  10 <= length (call_text (fst c)) <= 280.

Lemma prepare_bounds (tweet_content text : str) :
  prepare tweet_content = Some text -> 10 <= length text <= 280.
Proof.
  unfold prepare. remember (strip tweet_content) as t eqn:Ht. clear Ht.
  destruct (280 <? length t) eqn:Hlong.
  - apply Nat.ltb_lt in Hlong.
    assert (Hlen : length (firstn 277 t ++ lit "...") = 280).
    { rewrite length_app, length_firstn. cbn [length lit map list_ascii_of_string].
      lia. }
    rewrite Hlen. change (280 <? 10) with false. cbn iota.
    intros Hsome.
    assert (Htext : text = firstn 277 t ++ lit "...") by congruence.
    rewrite Htext, Hlen. lia.
  - apply Nat.ltb_ge in Hlong.
    destruct (length t <? 10) eqn:Hshort; [discriminate|].
    apply Nat.ltb_ge in Hshort. intros [= <-]. lia.
Qed.

Lemma prepare_short (tweet_content : str) :
  length (strip tweet_content) < 10 -> prepare tweet_content = None.
Proof.
  intros Hshort. unfold prepare.
  replace (280 <? length (strip tweet_content)) with false
    by (symmetry; apply Nat.ltb_ge; lia).
  apply Nat.ltb_lt in Hshort. now rewrite Hshort.
Qed.

Section Platform.

Variable api_state : Type.
Variable create_tweet : api_state -> api_call -> api_response * api_state.

Lemma post_tweet_loop_free (a : api_state) (content : str) :
  Forall postable (calls_made (post_tweet create_tweet a content))
  /\ posted_id (post_tweet create_tweet a content)
     = match calls_made (post_tweet create_tweet a content) with
       | (_, Created id) :: _ => Some id
       | _ => None
       end.
Proof.
  unfold post_tweet.
  destruct (prepare content) as [text|] eqn:Hprep.
  - destruct (create_tweet a {| call_text := text; call_in_reply_to := None |})
      as [response a'].
    cbn [calls_made posted_id]. split.
    + constructor; [|constructor]. unfold postable. cbn [fst call_text].
      now apply prepare_bounds with content.
    + destruct response; reflexivity.
  - cbn [calls_made posted_id]. split; [constructor | reflexivity].
Qed.

(** X10.  [post_tweet] calls the platform at most once, with a text of 10
    to 280 characters and no parent; when the stripped content has fewer
    than 10 characters it makes no call at all; and it returns an
    identifier exactly when that one call was confirmed, every failure of
    the platform giving [None]. *)
Theorem post_tweet_single_call (a : api_state) (content : str) :
  let r := post_tweet create_tweet a content in
  length (calls_made r) <= 1
  /\ Forall (fun c => postable c /\ call_in_reply_to (fst c) = None)
       (calls_made r)
  /\ (length (strip content) < 10 ->
      calls_made r = [] /\ posted_id r = None /\ api_left r = a)
  /\ (forall id,
        posted_id r = Some id <->
        exists call, calls_made r = [(call, Created id)]).
Proof.
  cbn zeta. unfold post_tweet.
  destruct (prepare content) as [text|] eqn:Hprep.
  - destruct (create_tweet a {| call_text := text; call_in_reply_to := None |})
      as [response a'] eqn:Hcall.
    cbn [calls_made posted_id api_left length].
    split; [lia|]. split; [|split].
    + constructor; [|constructor]. split; [|reflexivity].
      unfold postable. cbn [fst call_text]. now apply prepare_bounds with content.
    + intros Hshort. rewrite (prepare_short content Hshort) in Hprep.
      discriminate.
    + intros id. destruct response as [id'| |e]; split.
      * intros [= ->]. now eexists.
      * intros [call [= _ ->]]. reflexivity.
      * discriminate.
      * intros [call [= _ H]].
      * discriminate.
      * intros [call [= _ H]].
  - cbn [calls_made posted_id api_left length].
    split; [lia|]. split; [constructor|]. split; [now intros _|].
    intros id. split; [discriminate | intros [call H]; discriminate].
Qed.

Lemma post_thread_loop_postable (tweets : list str) :
  forall a tweet_ids previous log,
    Forall postable log ->
    Forall postable
      (calls (post_thread_loop create_tweet a tweet_ids previous log tweets))
    /\ length (calls (post_thread_loop create_tweet a tweet_ids previous log
                        tweets))
       <= length log + length tweets.
Proof.
  induction tweets as [|t rest IH]; intros a ids previous log Hlog;
    cbn [post_thread_loop].
  - cbn [calls length]. split; [exact Hlog | lia].
  - destruct (prepare t) as [text|] eqn:Hprep.
    + match goal with
      | |- context [create_tweet a ?c] =>
          set (call := c);
          destruct (create_tweet a call) as [response a'] eqn:Hcall
      end.
      assert (Hnew : Forall postable (log ++ [(call, response)])).
      { apply Forall_app; split; [exact Hlog|].
        constructor; [|constructor].
        unfold postable. cbn [fst call call_text].
        now apply prepare_bounds with t. }
      destruct response as [id| |e].
      * destruct (IH a' (ids ++ [id]) (Some id) _ Hnew) as [Hall Hlen].
        split; [exact Hall|].
        rewrite length_app in Hlen. cbn [length] in *. lia.
      * cbn [calls]. split; [exact Hnew|].
        rewrite length_app. cbn [length]. lia.
      * cbn [calls]. split; [exact Hnew|].
        rewrite length_app. cbn [length]. lia.
    + destruct (IH a ids previous log Hlog) as [Hall Hlen].
      split; [exact Hall | cbn [length]; lia].
Qed.

Lemma post_thread_postable (a : api_state) (tweets : list str) :
  Forall postable (calls (post_thread create_tweet a tweets))
  /\ length (calls (post_thread create_tweet a tweets)) <= length tweets.
Proof.
  destruct tweets as [|t rest].
  - cbn. split; [constructor | lia].
  - unfold post_thread.
    destruct (post_thread_loop_postable (t :: rest) a [] None []
                (Forall_nil _)) as [Hall Hlen].
    split; [exact Hall | exact Hlen].
Qed.

(** X11.  Every text that [post_thread] hands to the platform has between
    10 and 280 characters, and it makes at most one call per tweet of the
    thread. *)
Theorem post_thread_calls_postable (a : api_state) (tweets : list str) :
  Forall (fun c => 10 <= length (call_text (fst c)) <= 280)
    (calls (post_thread create_tweet a tweets))
  /\ length (calls (post_thread create_tweet a tweets)) <= length tweets.
Proof. exact (post_thread_postable a tweets). Qed.

(** [if previous_tweet_id:] *)
Definition parent_of (previous : option str) : option str :=
  match previous with
  | Some ((_ :: _) as p) => Some p
  | _ => None
  end.

(** A record of calls in which each call replies to the identifier
    confirmed by the call before it, starting from [previous]. *)
Fixpoint chained (previous : option str) (l : list (api_call * api_response))
  : Prop :=
  match l with
  | [] => True
  | (call, response) :: rest =>
      call_in_reply_to call = parent_of previous
      /\ chained (match response with
                  | Created id => Some id
                  | _ => previous
                  end) rest
  end.

Lemma post_thread_loop_chained (tweets : list str) :
  forall a tweet_ids previous log,
    exists new,
      calls (post_thread_loop create_tweet a tweet_ids previous log tweets)
      = log ++ new
      /\ chained previous new.
Proof.
  induction tweets as [|t rest IH]; intros a ids previous log;
    cbn [post_thread_loop].
  - exists []. cbn [calls]. now rewrite app_nil_r.
  - destruct (prepare t) as [text|]; [|apply IH].
    match goal with
    | |- context [create_tweet a ?c] =>
        set (call := c);
        destruct (create_tweet a call) as [response a'] eqn:Hcall
    end.
    destruct response as [id| |e].
    + destruct (IH a' (ids ++ [id]) (Some id) (log ++ [(call, Created id)]))
        as (new & Heq & Hchain).
      exists ((call, Created id) :: new). split.
      * rewrite Heq, <- app_assoc. reflexivity.
      * cbn [chained]. split; [|exact Hchain].
        unfold call, parent_of. cbn [call_in_reply_to].
        destruct previous as [[|c p]|]; reflexivity.
    + exists [(call, NoData)]. split; [reflexivity|].
      cbn [chained]. split; [|exact I].
      unfold call, parent_of. cbn [call_in_reply_to].
      destruct previous as [[|c p]|]; reflexivity.
    + exists [(call, Raises e)]. split; [reflexivity|].
      cbn [chained]. split; [|exact I].
      unfold call, parent_of. cbn [call_in_reply_to].
      destruct previous as [[|c p]|]; reflexivity.
Qed.

(** X12.  [post_thread] builds a reply chain: its first call has no
    parent, and every later call replies to the identifier that the call
    before it confirmed. *)
Theorem post_thread_reply_chain (a : api_state) (tweets : list str) :
  chained None (calls (post_thread create_tweet a tweets)).
Proof.
  destruct tweets as [|t rest]; [exact I|].
  unfold post_thread.
  destruct (post_thread_loop_chained (t :: rest) a [] None [])
    as (new & Heq & Hchain).
  rewrite Heq. exact Hchain.
Qed.

Lemma confirmed_ids_tail (tail : list (api_call * api_response)) :
  (tail = [] \/ exists f, tail = [f] /\ is_failure f) ->
  confirmed_ids tail = [].
Proof.
  intros [-> | [[call response] [-> Hf]]]; [reflexivity|].
  destruct Hf as [Hf | [e Hf]]; cbn in Hf; subst response; reflexivity.
Qed.

Lemma failure_stops (oks tail pre post : list (api_call * api_response))
    (c : api_call * api_response) :
  oks ++ tail = pre ++ c :: post ->
  Forall is_created oks ->
  (tail = [] \/ exists f, tail = [f] /\ is_failure f) ->
  is_failure c ->
  post = [].
Proof.
  revert pre. induction oks as [|o oks IH]; intros pre Heq Hoks Htail Hc.
  - cbn in Heq. destruct Htail as [-> | [f [-> _]]].
    + destruct pre; discriminate.
    + destruct pre as [|p pre]; [now injection Heq as _ <-|].
      injection Heq as _ Heq. destruct pre; discriminate.
  - inversion Hoks as [|? ? Ho Hoks']; subst.
    destruct pre as [|p pre].
    + cbn in Heq. injection Heq as <- _.
      exfalso. eauto using created_not_failure.
    + cbn in Heq. injection Heq as _ Heq. eauto.
Qed.

(** X13.  The value of [post_thread] is the list of the identifiers it got
    confirmed, in call order, or [None] when nothing was confirmed; and a
    failed call is always the last call of the run. *)
Theorem post_thread_returns_confirmed (a : api_state) (tweets : list str) :
  returned (post_thread create_tweet a tweets)
  = ids_or_none (confirmed_ids (calls (post_thread create_tweet a tweets)))
  /\ (forall pre c post,
        calls (post_thread create_tweet a tweets) = pre ++ c :: post ->
        is_failure c -> post = []).
Proof.
  destruct (post_thread_shape api_state create_tweet a tweets)
    as (oks & tail & Heq & Hoks & Htail & Hret).
  split.
  - rewrite Hret, Heq, confirmed_ids_app, (confirmed_ids_tail tail Htail).
    now rewrite app_nil_r.
  - intros pre c post Hcalls Hc. rewrite Heq in Hcalls.
    exact (failure_stops oks tail pre post c Hcalls Hoks Htail Hc).
Qed.

Variable isdigit : char -> bool.
Variable isdecimal : char -> bool.

(** X14.  Whatever the content and whichever path it takes,
    [post_content] hands the platform only texts of 10 to 280 characters,
    and its result is the identifier confirmed by its first call: [None]
    when it made no call or when the first call failed. *)
Theorem post_content_first_call (a : api_state) (content : str) :
  let r := post_content create_tweet isdigit isdecimal a content in
  Forall postable (calls_made r)
  /\ posted_id r
     = match calls_made r with
       | (_, Created id) :: _ => Some id
       | _ => None
       end.
Proof.
  cbn zeta. unfold post_content.
  destruct (_is_thread_content isdigit content).
  - cbn [calls_made posted_id].
    split; [apply post_thread_postable|].
    destruct (post_thread_shape api_state create_tweet a
                (_parse_thread_content isdecimal content))
      as (oks & tail & Heq & Hoks & Htail & Hret).
    rewrite Hret, Heq.
    destruct oks as [|[call response] oks].
    + cbn [confirmed_ids ids_or_none app].
      destruct Htail as [-> | [[call response] [-> Hf]]]; [reflexivity|].
      destruct Hf as [Hf | [e Hf]]; cbn in Hf; subst response; reflexivity.
    + inversion Hoks as [|? ? [id Hid] _]; subst. cbn in Hid. subst response.
      reflexivity.
  - pose proof (post_tweet_loop_free a content) as H. exact H.
Qed.

End Platform.

End TwitterPostingProperties.

(* ================================================================== *)
(** * Parsing a generated thread back into its tweets *)
(* ================================================================== *)

Module ThreadRoundTrip.

Import ContentGenerator TwitterClient TwitterPosting ThreadHandOver.

Definition ascii_digit (c : char) : bool := ((48 <=? c) && (c <=? 57))%N.

(** A tweet as validation leaves it in the usual case: not empty, no
    whitespace at either end, no blank line inside. *)
Definition tidy (t : str) : Prop :=
  (exists c r, t = c :: r /\ isspace c = false)
  /\ isspace (last t 0%N) = false
  /\ contains [NL; NL] t = false.

Lemma digits_of_uint (d : Decimal.uint) :
  Forall (fun c => ascii_digit c = true) (lit (NilEmpty.string_of_uint d)).
Proof.
  induction d; cbn; constructor; try reflexivity; assumption.
Qed.

Lemma str_of_nat_digits (n : nat) :
  str_of_nat n <> []
  /\ Forall (fun c => ascii_digit c = true) (str_of_nat n).
Proof.
  unfold str_of_nat, NilZero.string_of_uint.
  generalize (Nat.to_uint n). intros d.
  destruct d; split; try (cbn; discriminate); try apply digits_of_uint.
  repeat constructor.
Qed.

Lemma ascii_digit_facts (c : char) :
  ascii_digit c = true -> isspace c = false /\ c <> NL /\ c <> SLASH.
Proof.
  unfold ascii_digit, isspace, NL, SLASH. intros H.
  apply andb_prop in H as [H1 H2]. apply N.leb_le in H1, H2.
  repeat split; try lia.
  repeat (apply orb_false_intro);
    try (apply andb_false_intro1; apply N.leb_gt; lia);
    try (apply andb_false_intro2; apply N.leb_gt; lia);
    try (apply N.eqb_neq; lia).
Qed.

(** ** Splitting a join *)

Lemma contains_cons_false (sub : str) (c : char) (s : str) :
  contains sub (c :: s) = false ->
  starts_with sub (c :: s) = false /\ contains sub s = false.
Proof. cbn [contains]. intros H. now apply orb_false_elim in H. Qed.

Lemma split_go_whole (x : str) :
  forall cur,
    contains [NL; NL] x = false ->
    split_go [NL; NL] 0 cur x = [rev cur ++ x].
Proof.
  induction x as [|c x IH]; intros cur Hfree.
  - cbn. now rewrite app_nil_r.
  - apply contains_cons_false in Hfree as [Hstart Hrest].
    rewrite split_go_step by exact Hstart.
    rewrite IH by exact Hrest. cbn [rev]. now rewrite <- app_assoc.
Qed.

Lemma split_go_piece (x : str) :
  forall cur rest,
    contains [NL; NL] x = false ->
    last x 0%N <> NL ->
    split_go [NL; NL] 0 cur (x ++ NL :: NL :: rest)
    = (rev cur ++ x) :: split_go [NL; NL] 0 [] rest.
Proof.
  induction x as [|c x IH]; intros cur rest Hfree Hlast.
  - cbn [app]. rewrite split_go_separator. now rewrite app_nil_r.
  - apply contains_cons_false in Hfree as [Hstart Hrest].
    cbn [app].
    assert (Hno : starts_with [NL; NL] (c :: x ++ NL :: NL :: rest) = false).
    { destruct (starts_with [NL; NL] (c :: x ++ NL :: NL :: rest)) eqn:Hs;
        [|reflexivity].
      apply starts_with_separator in Hs as [tail Heq].
      injection Heq as -> Htail.
      destruct x as [|c' x'].
      - cbn in Hlast. congruence.
      - cbn [app] in Htail. injection Htail as -> _.
        cbn in Hstart. discriminate. }
    rewrite split_go_step by exact Hno.
    rewrite IH; [cbn [rev]; now rewrite <- app_assoc | exact Hrest |].
    destruct x as [|c' x']; [cbn; discriminate | exact Hlast].
Qed.

Definition separable (seg : str) : Prop :=
  contains [NL; NL] seg = false /\ last seg 0%N <> NL.

Lemma split_join (segs : list str) :
  segs <> [] ->
  Forall separable segs ->
  split [NL; NL] (join [NL; NL] segs) = segs.
Proof.
  unfold split.
  induction segs as [|x segs IH]; intros Hne Hall; [congruence|].
  inversion Hall as [|? ? [Hfree Hlast] Hrest]; subst.
  destruct segs as [|y segs].
  - cbn [join]. now rewrite split_go_whole.
  - change (join [NL; NL] (x :: y :: segs))
      with (x ++ NL :: NL :: join [NL; NL] (y :: segs)).
    rewrite split_go_piece by assumption.
    cbn [rev app]. f_equal. apply IH; [discriminate | exact Hrest].
Qed.

(** ** Stripping a text that needs no stripping *)

Lemma rev_last (s : str) (d : char) :
  s <> [] -> rev s = last s d :: rev (removelast s).
Proof.
  intros Hne. rewrite (app_removelast_last d Hne) at 1.
  now rewrite rev_app_distr.
Qed.

Lemma strip_tidy (s : str) :
  (exists c r, s = c :: r /\ isspace c = false) ->
  isspace (last s 0%N) = false ->
  strip s = s.
Proof.
  intros (c & r & -> & Hc) Hlast.
  unfold strip, rstrip. cbn [lstrip]. rewrite Hc.
  rewrite (rev_last (c :: r) 0%N) by discriminate.
  cbn [lstrip]. rewrite Hlast.
  rewrite <- (rev_last (c :: r) 0%N) by discriminate.
  apply rev_involutive.
Qed.

Lemma last_app_nonempty (a b : str) (d : char) :
  b <> [] -> last (a ++ b) d = last b d.
Proof.
  intros Hb. induction a as [|c a IH]; [reflexivity|].
  cbn [app]. destruct (a ++ b) eqn:Hab.
  - destruct a, b; cbn in Hab; congruence.
  - cbn [last]. exact IH.
Qed.

Lemma contains_after_prefix (pre t : str) :
  Forall (fun c => c <> NL) pre ->
  contains [NL; NL] (pre ++ t) = contains [NL; NL] t.
Proof.
  induction 1 as [|c pre Hc _ IH]; [reflexivity|].
  cbn [app contains]. rewrite IH.
  replace (starts_with [NL; NL] (c :: pre ++ t)) with false; [reflexivity|].
  symmetry. cbn [starts_with].
  replace (NL =? c)%N with false; [reflexivity|].
  symmetry. apply N.eqb_neq. congruence.
Qed.

Lemma contains_before_suffix (t suf : str) :
  contains [NL; NL] t = false ->
  Forall (fun c => c <> NL) suf ->
  contains [NL; NL] (t ++ suf) = false.
Proof.
  intros Hfree Hsuf.
  induction t as [|c t IH].
  - cbn [app]. rewrite <- (app_nil_r suf), contains_after_prefix by exact Hsuf.
    reflexivity.
  - apply contains_cons_false in Hfree as [Hstart Hrest].
    cbn [app contains]. rewrite (IH Hrest), orb_false_r.
    destruct (starts_with [NL; NL] (c :: t ++ suf)) eqn:Hs; [|reflexivity].
    apply starts_with_separator in Hs as [tail Heq].
    injection Heq as -> Htail.
    destruct t as [|c' t'].
    + cbn [app] in Htail. rewrite Htail in Hsuf.
      inversion Hsuf; congruence.
    + cbn [app] in Htail. injection Htail as -> _.
      cbn in Hstart. discriminate.
Qed.

Section Parser.

Variable isdecimal : char -> bool.
Hypothesis decimal_digits : forall c, ascii_digit c = true -> isdecimal c = true.
Hypothesis decimal_slash : isdecimal SLASH = false.
Hypothesis decimal_space : isdecimal 32%N = false.

Lemma span_decimal_digits (ds rest : str) :
  Forall (fun c => ascii_digit c = true) ds ->
  match rest with [] => True | c :: _ => isdecimal c = false end ->
  span_decimal isdecimal (ds ++ rest) = (ds, rest).
Proof.
  intros Hds Hrest. induction Hds as [|c ds Hc _ IH].
  - cbn [app]. destruct rest as [|c rest]; [reflexivity|].
    cbn [span_decimal]. now rewrite Hrest.
  - cbn [app span_decimal]. rewrite (decimal_digits c Hc), IH. reflexivity.
Qed.

(** The segment [i/N tweet] and what the parser makes of it. *)
Definition numbered (i total : nat) (tweet : str) : str :=
  str_of_nat i ++ lit "/" ++ str_of_nat total ++ lit " " ++ tweet.

Lemma numbered_prefix_no_newline (i total : nat) :
  Forall (fun c => c <> NL)
    (str_of_nat i ++ lit "/" ++ str_of_nat total ++ lit " ").
Proof.
  destruct (str_of_nat_digits i) as [_ Hi].
  destruct (str_of_nat_digits total) as [_ Ht].
  repeat (apply Forall_app; split).
  - eapply Forall_impl; [|exact Hi]. intros c Hc. now apply ascii_digit_facts.
  - repeat constructor. discriminate.
  - eapply Forall_impl; [|exact Ht]. intros c Hc. now apply ascii_digit_facts.
  - repeat constructor. discriminate.
Qed.

Lemma numbered_separable (i total : nat) (tweet : str) :
  tidy tweet -> separable (numbered i total tweet).
Proof.
  intros ((c & r & -> & Hc) & Hlast & Hfree). unfold separable, numbered.
  replace (str_of_nat i ++ lit "/" ++ str_of_nat total ++ lit " " ++ c :: r)
    with ((str_of_nat i ++ lit "/" ++ str_of_nat total ++ lit " ") ++ c :: r)
    by (now rewrite <- !app_assoc).
  split.
  - rewrite contains_after_prefix by apply numbered_prefix_no_newline.
    exact Hfree.
  - rewrite last_app_nonempty by discriminate.
    intros Heq. rewrite Heq in Hlast. discriminate.
Qed.

Lemma numbered_strip (i total : nat) (tweet : str) :
  tidy tweet -> strip (numbered i total tweet) = numbered i total tweet.
Proof.
  intros ((c & r & -> & Hc) & Hlast & Hfree).
  destruct (str_of_nat_digits i) as [Hne Hi].
  apply strip_tidy.
  - unfold numbered. destruct (str_of_nat i) as [|d ds]; [congruence|].
    inversion Hi; subst. exists d. eexists. split; [reflexivity|].
    now apply ascii_digit_facts.
  - unfold numbered.
    replace (str_of_nat i ++ lit "/" ++ str_of_nat total ++ lit " " ++ c :: r)
      with ((str_of_nat i ++ lit "/" ++ str_of_nat total ++ lit " ") ++ c :: r)
      by (now rewrite <- !app_assoc).
    rewrite last_app_nonempty by discriminate. exact Hlast.
Qed.

Lemma strip_numbering_numbered (i total : nat) (tweet : str) :
  tidy tweet -> strip_numbering isdecimal (numbered i total tweet) = tweet.
Proof.
  intros ((c & r & -> & Hc) & _ & _).
  destruct (str_of_nat_digits i) as [Hine Hi].
  destruct (str_of_nat_digits total) as [Htne Ht].
  unfold strip_numbering, numbered.
  rewrite (span_decimal_digits (str_of_nat i)
             (lit "/" ++ str_of_nat total ++ lit " " ++ c :: r) Hi)
    by exact decimal_slash.
  destruct (str_of_nat i) as [|d ds]; [congruence|].
  change (lit "/" ++ str_of_nat total ++ lit " " ++ c :: r)
    with (SLASH :: str_of_nat total ++ lit " " ++ c :: r).
  cbn iota. rewrite N.eqb_refl.
  rewrite (span_decimal_digits (str_of_nat total) (lit " " ++ c :: r) Ht)
    by exact decimal_space.
  destruct (str_of_nat total) as [|d' ds']; [congruence|].
  cbn [lit map list_ascii_of_string app lstrip].
  change (isspace (N_of_ascii " ")) with true. cbn iota.
  now rewrite Hc.
Qed.

Definition parse_part (part : str) : list str :=
  match strip part with
  | [] => []
  | (_ :: _) as part => [strip_numbering isdecimal part]
  end.

Lemma parse_part_numbered (i total : nat) (tweet : str) :
  tidy tweet -> parse_part (numbered i total tweet) = [tweet].
Proof.
  intros Htidy. unfold parse_part. rewrite (numbered_strip i total tweet Htidy).
  destruct (numbered i total tweet) eqn:Hn.
  - unfold numbered in Hn. destruct (str_of_nat_digits i) as [Hne _].
    destruct (str_of_nat i); [congruence | discriminate].
  - rewrite <- Hn. now rewrite strip_numbering_numbered.
Qed.

Lemma number_tweets_later (tweets : list str) :
  forall i total,
    2 <= i ->
    Forall tidy tweets ->
    Forall separable (number_tweets i total tweets)
    /\ flat_map parse_part (number_tweets i total tweets) = tweets.
Proof.
  induction tweets as [|t rest IH]; intros i total Hi Hall;
    cbn [number_tweets flat_map]; [split; [constructor | reflexivity]|].
  inversion Hall as [|? ? Ht Hrest]; subst.
  replace (i =? 1) with false by (symmetry; apply Nat.eqb_neq; lia).
  fold (numbered i total t).
  destruct (IH (S i) total ltac:(lia) Hrest) as [Hsep Hparse].
  split.
  - constructor; [now apply numbered_separable | exact Hsep].
  - rewrite (parse_part_numbered i total t Ht), Hparse. reflexivity.
Qed.

(** X15.  For tweets without whitespace at their ends and without a blank
    line inside, the first of them not starting with a digit, the parser of
    the publisher recovers from the generator's thread text exactly the
    tweets the generator validated: the first with its thread suffix, the
    others freed of their [i/N] prefix, in order. *)
Theorem parse_recovers_tweets (t1 t2 : str) (rest : list str) :
  Forall tidy (t1 :: t2 :: rest) ->
  (forall c r, t1 = c :: r -> isdecimal c = false) ->
  _parse_thread_content isdecimal
    (join [NL; NL] (output_segments (t1 :: t2 :: rest)))
  = (t1 ++ lit " " ++ thread_suffix_glyph) :: t2 :: rest.
Proof.
  intros Hall Hfirst.
  inversion Hall as [|? ? Ht1 Hlater]; subst.
  destruct Ht1 as ((c & r & -> & Hc) & Hlast & Hfree).
  unfold _parse_thread_content. fold parse_part.
  set (seg1 := (c :: r) ++ lit " " ++ thread_suffix_glyph).
  set (later := number_tweets 2 (length ((c :: r) :: t2 :: rest)) (t2 :: rest)).
  change (output_segments ((c :: r) :: t2 :: rest)) with (seg1 :: later).
  destruct (number_tweets_later (t2 :: rest) 2 (length ((c :: r) :: t2 :: rest))
              (le_n 2) Hlater) as [Hsep Hparse].
  fold later in Hsep, Hparse.
  assert (Hseg1 : separable seg1).
  { unfold separable, seg1. split.
    - apply contains_before_suffix; [exact Hfree|].
      repeat constructor; discriminate.
    - rewrite last_app_nonempty by discriminate. discriminate. }
  rewrite split_join; [|discriminate | constructor; assumption].
  cbn [flat_map]. rewrite Hparse.
  assert (Hpart : parse_part seg1 = [seg1]).
  { unfold parse_part. rewrite strip_tidy.
    - unfold seg1 at 1. cbn [app]. unfold strip_numbering.
      unfold seg1. cbn [app span_decimal].
      rewrite (Hfirst c r eq_refl). reflexivity.
    - exists c. eexists. split; [reflexivity | exact Hc].
    - unfold seg1. rewrite last_app_nonempty by discriminate. reflexivity. }
  rewrite Hpart. reflexivity.
Qed.

End Parser.

Definition first_tweet : str := concat (repeat (lit "a") 60).
Definition second_tweet : str := concat (repeat (lit "b") 60).

Lemma parse_recovers_tweets_witness :
  Forall tidy [first_tweet; second_tweet]
  /\ _parse_thread_content ascii_digit
       (join [NL; NL] (output_segments [first_tweet; second_tweet]))
     = [first_tweet ++ lit " " ++ thread_suffix_glyph; second_tweet].
Proof.
  assert (Htidy : Forall tidy [first_tweet; second_tweet]).
  { repeat constructor; try reflexivity.
    - exists 97%N. eexists. split; reflexivity.
    - exists 98%N. eexists. split; reflexivity. }
  split; [exact Htidy|].
  refine (parse_recovers_tweets ascii_digit _ _ _
            first_tweet second_tweet [] Htidy _).
  - intros c Hc. exact Hc.
  - reflexivity.
  - reflexivity.
  - intros c r Heq. injection Heq as <- _. reflexivity.
Defined.

End ThreadRoundTrip.

(* ================================================================== *)
(** * Further properties of database.py *)
(* ================================================================== *)

Module DatabaseProperties.

Import Database DatabaseQueries DatabaseFacts StoreInvariants.

Local Open Scope Z_scope.

(** ** ORDER BY keeps the rows and sorts them *)

Section Ordering.

Variable row : Type.
Variable leb : row -> row -> bool.
Hypothesis leb_total : forall a b, leb a b = false -> leb b a = true.

Lemma insert_row_in (r x : row) (sorted : list row) :
  In x (insert_row leb r sorted) <-> x = r \/ In x sorted.
Proof.
  induction sorted as [|y rest IH]; cbn [insert_row].
  - cbn. intuition.
  - destruct (leb r y); cbn [In]; [intuition|].
    rewrite IH. intuition.
Qed.

Lemma order_by_in (x : row) (rows : list row) :
  In x (order_by leb rows) <-> In x rows.
Proof.
  induction rows as [|r rows IH]; [reflexivity|].
  unfold order_by. cbn [fold_right]. fold (order_by leb rows).
  rewrite insert_row_in, IH. cbn [In]. intuition.
Qed.

Lemma insert_row_sorted (r : row) (sorted : list row) :
  Sorted (fun a b => leb a b = true) sorted ->
  Sorted (fun a b => leb a b = true) (insert_row leb r sorted).
Proof.
  induction 1 as [|y rest Hrest IH Hhd]; cbn [insert_row].
  - repeat constructor.
  - destruct (leb r y) eqn:Hry.
    + constructor; [now constructor | now constructor].
    + constructor; [exact IH|].
      destruct rest as [|z rest]; cbn [insert_row].
      * constructor. now apply leb_total.
      * destruct (leb r z); constructor;
          [now apply leb_total | now inversion Hhd].
Qed.

Lemma order_by_sorted (rows : list row) :
  Sorted (fun a b => leb a b = true) (order_by leb rows).
Proof.
  induction rows as [|r rows IH]; [constructor|].
  unfold order_by. cbn [fold_right]. fold (order_by leb rows).
  now apply insert_row_sorted.
Qed.

End Ordering.

Lemma str_eqb_eq (a b : str) : str_eqb a b = true <-> a = b.
Proof.
  revert b. induction a as [|x a IH]; intros [|y b]; cbn [str_eqb];
    try (split; [discriminate | discriminate]); [now split|].
  rewrite andb_true_iff, N.eqb_eq, IH.
  split; [intros [-> ->]; reflexivity | intros [= -> ->]; now split].
Qed.

Lemma joined_in (s : store) (q q0 : queue_row) :
  In q (joined s q0) <->
  q = q0 /\ exists p, In p (projects s) /\ p_id p = cq_project_id q0.
Proof.
  unfold joined. rewrite in_map_iff. split.
  - intros (p & <- & Hp). apply filter_In in Hp as [Hp Hid].
    apply Z.eqb_eq in Hid. split; [reflexivity|]. now exists p.
  - intros (-> & p & Hp & Hid). exists p. split; [reflexivity|].
    apply filter_In. split; [exact Hp | now apply Z.eqb_eq].
Qed.

Lemma get_pending_content_in (now : timestamp) (s : store) (q : queue_row) :
  In q (get_pending_content now s) <->
  In q (content_queue s)
  /\ status q = pending
  /\ scheduled_time q <= now
  /\ exists p, In p (projects s) /\ p_id p = cq_project_id q.
Proof.
  unfold get_pending_content.
  rewrite order_by_in, filter_In, in_flat_map, andb_true_iff,
    str_eqb_eq, Z.leb_le.
  split.
  - intros ((q0 & Hq0 & Hjoin) & Hst & Hdue).
    apply joined_in in Hjoin as (-> & Hp). repeat split; assumption.
  - intros (Hq & Hst & Hdue & Hp). split; [|now split].
    exists q. split; [exact Hq|]. apply joined_in. now split.
Qed.

(** X16.  [get_pending_content] returns exactly the queue rows that are
    pending, due at the time of the call and attached to an existing
    project, and it returns them by ascending [scheduled_time]. *)
Theorem get_pending_content_due_sorted (now : timestamp) (s : store) :
  (forall q,
      In q (get_pending_content now s) <->
      In q (content_queue s)
      /\ status q = pending
      /\ scheduled_time q <= now
      /\ exists p, In p (projects s) /\ p_id p = cq_project_id q)
  /\ StronglySorted (fun a b => scheduled_time a <= scheduled_time b)
       (get_pending_content now s).
Proof.
  split; [intros q; apply get_pending_content_in|].
  unfold get_pending_content.
  apply Sorted_StronglySorted; [intros a b c; lia|].
  eapply Sorted_ind
    with (P := fun l => Sorted (fun a b => scheduled_time a <= scheduled_time b) l);
    [constructor | | apply order_by_sorted].
  - intros a l _ IH Hhd. constructor; [exact IH|].
    destruct Hhd as [|b l Hab]; constructor. now apply Z.leb_le.
  - intros a b Hab. apply Z.leb_le. apply Z.leb_gt in Hab. lia.
Qed.

(** X17.  Content saved for an existing project is found again: from the
    moment of the insert on, [get_pending_content] lists the new row, under
    the identifier that [save_generated_content] returned, and it still
    lists every row it listed before. *)
Theorem saved_content_is_pending
    (now t : timestamp) (project_id : Z) (content content_type : str)
    (s : store) :
  (exists p, In p (projects s) /\ p_id p = project_id) ->
  now <= t ->
  let saved := save_generated_content now project_id content content_type s in
  (exists row,
      In row (get_pending_content t (snd saved))
      /\ cq_id row = fst saved
      /\ cq_project_id row = project_id
      /\ cq_content row = content)
  /\ (forall q, In q (get_pending_content t s) ->
                In q (get_pending_content t (snd saved))).
Proof.
  intros Hp Hnow. cbn zeta. split.
  - exists {| cq_id := next_queue_id s; cq_project_id := project_id;
              cq_content := content; cq_content_type := content_type;
              scheduled_time := now; status := pending;
              created_date := now |}.
    split; [|repeat split].
    apply get_pending_content_in. cbn [save_generated_content snd].
    cbn [content_queue projects].
    split; [apply in_or_app; right; left; reflexivity|].
    cbn [status scheduled_time cq_project_id].
    split; [reflexivity|]. split; [lia | exact Hp].
  - intros q Hq. apply get_pending_content_in in Hq as (Hin & Hst & Hdue & Hproj).
    apply get_pending_content_in. cbn [save_generated_content snd].
    cbn [content_queue projects].
    repeat split; try assumption. apply in_or_app. now left.
Qed.

Lemma saved_content_is_pending_witness :
  (exists p, In p (projects one_subject) /\ p_id p = 1)
  /\ exists row,
       In row (get_pending_content 100 queued)
       /\ cq_id row = 1
       /\ cq_project_id row = 1
       /\ cq_content row = lit "An analysis of the subject".
Proof.
  assert (H : exists p, In p (projects one_subject) /\ p_id p = 1).
  { eexists. split; [left; reflexivity | reflexivity]. }
  split; [exact H|].
  exact (proj1 (saved_content_is_pending 0 100 1
                  (lit "An analysis of the subject") (lit "analysis")
                  one_subject H ltac:(lia))).
Defined.

(** ** Primary keys *)

Definition keys_fresh (s : store) : Prop :=
  NoDup (map cq_id (content_queue s))
  /\ Forall (fun q => cq_id q < next_queue_id s) (content_queue s)
  /\ NoDup (map pc_id (posted_content s))
  /\ Forall (fun r => pc_id r < next_posted_id s) (posted_content s).

Lemma NoDup_map_filter {A : Type} (f : A -> Z) (keep : A -> bool)
    (l : list A) :
  NoDup (map f l) -> NoDup (map f (filter keep l)).
Proof.
  induction l as [|x l IH]; cbn [map filter]; [auto|].
  intros Hnd. inversion Hnd as [|? ? Hnotin Hrest]; subst.
  destruct (keep x); cbn [map]; [|auto].
  constructor; [|auto].
  intros Hin. apply Hnotin. apply in_map_iff in Hin as (y & Hy & Hin).
  apply filter_In in Hin as [Hin _]. apply in_map_iff. now exists y.
Qed.

Lemma Forall_filter {A : Type} (P : A -> Prop) (keep : A -> bool)
    (l : list A) :
  Forall P l -> Forall P (filter keep l).
Proof.
  intros Hall. apply Forall_forall. intros x Hx.
  apply filter_In in Hx as [Hx _]. rewrite Forall_forall in Hall. auto.
Qed.

Lemma NoDup_map_snoc {A : Type} (f : A -> Z) (l : list A) (x : A) (bound : Z) :
  NoDup (map f l) -> Forall (fun y => f y < bound) l -> f x = bound ->
  NoDup (map f (l ++ [x])).
Proof.
  intros Hnd Hall Hx. rewrite map_app. cbn [map].
  apply NoDup_app; [exact Hnd | repeat constructor; auto |].
  intros k Hk [<-|[]]. apply in_map_iff in Hk as (y & Hy & Hin).
  rewrite Forall_forall in Hall. specialize (Hall y Hin). lia.
Qed.

Lemma record_post_keys now pid content tweet ctype queue s :
  NoDup (map cq_id queue) ->
  Forall (fun q => cq_id q < next_queue_id s) queue ->
  keys_fresh s ->
  keys_fresh (record_post now pid content tweet ctype queue s).
Proof.
  intros Hq1 Hq2 (_ & _ & Hp1 & Hp2). unfold keys_fresh, record_post.
  cbn [content_queue posted_content next_queue_id next_posted_id].
  repeat split; try assumption.
  - now apply NoDup_map_snoc with (bound := next_posted_id s).
  - apply Forall_app. split.
    + eapply Forall_impl; [|exact Hp2]. cbn. intros r Hr. lia.
    + repeat constructor. cbn. lia.
Qed.

(** X18.  In every store the program can reach, the identifiers of the
    queue rows are pairwise distinct and below the next identifier to be
    given out, and so are those of the posted rows: a lookup or a deletion
    by [id] concerns at most one row. *)
Theorem reachable_keys_unique (allow_purge : bool) (s : store) :
  reachable allow_purge s ->
  NoDup (map cq_id (content_queue s))
  /\ Forall (fun q => cq_id q < next_queue_id s) (content_queue s)
  /\ NoDup (map pc_id (posted_content s))
  /\ Forall (fun r => pc_id r < next_posted_id s) (posted_content s).
Proof.
  change (reachable allow_purge s -> keys_fresh s).
  induction 1 as [catalog Hfresh
                 | now pid content ctype s Hs IH
                 | t queue_id s Hs IH
                 | now queue_id tweet s Hs IH
                 | now p0 content tweet s Hs IH Hp0
                 | queue_id s Hs IH
                 | now s Hs IH
                 | id score s Hs IH
                 | now s Hpurge Hs IH ].
  - unfold keys_fresh, initial. cbn. repeat split; constructor.
  - destruct IH as (Hq1 & Hq2 & Hp1 & Hp2).
    unfold keys_fresh, save_generated_content.
    cbn [snd content_queue posted_content next_queue_id next_posted_id].
    repeat split; try assumption.
    + now apply NoDup_map_snoc with (bound := next_queue_id s).
    + apply Forall_app. split.
      * eapply Forall_impl; [|exact Hq2]. cbn. intros q Hq. lia.
      * repeat constructor. cbn. lia.
  - destruct IH as (Hq1 & Hq2 & Hp1 & Hp2).
    unfold keys_fresh, set_scheduled_time.
    cbn [content_queue posted_content next_queue_id next_posted_id].
    repeat split; try assumption.
    + rewrite map_map.
      erewrite map_ext; [exact Hq1|].
      intros q. cbn. now destruct (cq_id q =? queue_id).
    + apply Forall_forall. intros q Hq.
      apply in_map_iff in Hq as (q0 & <- & Hq0).
      rewrite Forall_forall in Hq2. specialize (Hq2 q0 Hq0).
      now destruct (cq_id q0 =? queue_id).
  - unfold mark_content_posted.
    destruct (find (fun q => cq_id q =? queue_id) (content_queue s));
      [|exact IH].
    destruct IH as (Hq1 & Hq2 & Hp).
    apply record_post_keys;
      [now apply NoDup_map_filter | now apply Forall_filter
      | repeat split; assumption || apply Hp].
  - destruct IH as (Hq1 & Hq2 & Hp).
    unfold record_direct_post.
    apply record_post_keys; [assumption.. | repeat split; assumption || apply Hp].
  - destruct IH as (Hq1 & Hq2 & Hp1 & Hp2).
    unfold keys_fresh, delete_queue_item.
    cbn [content_queue posted_content next_queue_id next_posted_id].
    repeat split; try assumption;
      [now apply NoDup_map_filter | now apply Forall_filter].
  - destruct IH as (Hq1 & Hq2 & Hp1 & Hp2).
    unfold keys_fresh, purge_stale_queue.
    cbn [content_queue posted_content next_queue_id next_posted_id].
    repeat split; try assumption;
      [now apply NoDup_map_filter | now apply Forall_filter].
  - destruct IH as (Hq1 & Hq2 & Hp1 & Hp2).
    unfold keys_fresh, set_engagement_score.
    cbn [content_queue posted_content next_queue_id next_posted_id].
    repeat split; try assumption.
    + rewrite map_map.
      erewrite map_ext; [exact Hp1|].
      intros r. cbn. now destruct (pc_id r =? id).
    + apply Forall_forall. intros r Hr.
      apply in_map_iff in Hr as (r0 & <- & Hr0).
      rewrite Forall_forall in Hp2. specialize (Hp2 r0 Hr0).
      now destruct (pc_id r0 =? id).
  - destruct IH as (Hq1 & Hq2 & Hp1 & Hp2).
    unfold keys_fresh, purge_old_posted.
    cbn [content_queue posted_content next_queue_id next_posted_id].
    repeat split; try assumption;
      [now apply NoDup_map_filter | now apply Forall_filter].
Qed.

Lemma reachable_keys_unique_witness :
  reachable true purged
  /\ NoDup (map cq_id (content_queue purged))
  /\ NoDup (map pc_id (posted_content purged)).
Proof.
  split; [exact purged_reachable|].
  pose proof (reachable_keys_unique true purged purged_reachable)
    as (Hq & _ & Hp & _).
  split; assumption.
Defined.

(** ** Marking a queue row as posted *)


Lemma mark_content_posted_queue now queue_id tweet s q :
  In q (content_queue (mark_content_posted now queue_id tweet s)) <->
  In q (content_queue s) /\ cq_id q <> queue_id.
Proof.
  unfold mark_content_posted.
  destruct (find (fun q => cq_id q =? queue_id) (content_queue s)) eqn:Hfind.
  - cbn [record_post content_queue]. rewrite filter_In, negb_true_iff, Z.eqb_neq.
    reflexivity.
  - split; [|now intros [? _]].
    intros Hin. split; [exact Hin|].
    pose proof (find_none _ _ Hfind q Hin) as Hne. now apply Z.eqb_neq.
Qed.

(** X19.  After [mark_content_posted] no queue row carries the given
    identifier while every other queue row is still there, and marking the
    same identifier a second time changes nothing: one queue row is never
    recorded as two posts. *)
Theorem mark_content_posted_once
    (now now' : timestamp) (queue_id : Z) (tweet tweet' : str) (s : store) :
  (forall q,
      In q (content_queue (mark_content_posted now queue_id tweet s)) <->
      In q (content_queue s) /\ cq_id q <> queue_id)
  /\ mark_content_posted now' queue_id tweet'
       (mark_content_posted now queue_id tweet s)
     = mark_content_posted now queue_id tweet s.
Proof.
  split; [intros q; apply mark_content_posted_queue|].
  unfold mark_content_posted at 1.
  rewrite find_none_of_absent; [reflexivity|].
  intros q Hq. now apply mark_content_posted_queue in Hq as [_ Hne].
Qed.









(** ** Daily statistics *)





End DatabaseProperties.

(* ================================================================== *)
(** * Further properties of scheduler.py *)
(* ================================================================== *)

Module SchedulerJobsProperties.

Import Database DatabaseQueries Scheduler SchedulerJobs.
Import DatabaseFacts StoreInvariants SchedulerFacts DatabaseProperties.

Local Open Scope Z_scope.

(** X23.  A scheduler built by [__init__] keeps its cap at 8, and its
    daily counter never leaves the range from 0 to 8, whatever checks,
    counted posts and resets it goes through and on whatever dates. *)
Theorem daily_counter_bounded (c : counters) :
  reachable c ->
  max_posts_per_day c = 8 /\ 0 <= daily_post_count c <= 8.
Proof.
  intros Hc. apply reachable_bounds in Hc. lia.
Qed.

Lemma daily_counter_bounded_witness :
  reachable after_two_posts
  /\ max_posts_per_day after_two_posts = 8
  /\ 0 <= daily_post_count after_two_posts <= 8.
Proof.
  split; [exact after_two_posts_reachable|].
  exact (daily_counter_bounded after_two_posts after_two_posts_reachable).
Defined.

(** ** Engagement scores *)

(** X24.  The engagement score of non-negative platform counters is
    non-negative, and it does not decrease when no counter decreases. *)
Theorem engagement_score_monotone (m m' : tweet_stats) :
  0 <= like_count m -> 0 <= retweet_count m ->
  0 <= reply_count m -> 0 <= quote_count m ->
  like_count m <= like_count m' -> retweet_count m <= retweet_count m' ->
  reply_count m <= reply_count m' -> quote_count m <= quote_count m' ->
  0 <= engagement_score_of m <= engagement_score_of m'.
Proof. unfold engagement_score_of. lia. Qed.

Lemma engagement_score_monotone_witness :
  engagement_score_of
    {| like_count := 3; retweet_count := 1; reply_count := 0; quote_count := 2 |}
  = 9
  /\ 0 <= 9 <= engagement_score_of
       {| like_count := 4; retweet_count := 1; reply_count := 2;
          quote_count := 2 |}.
Proof.
  split; [reflexivity|].
  refine (engagement_score_monotone
            {| like_count := 3; retweet_count := 1; reply_count := 0;
               quote_count := 2 |}
            {| like_count := 4; retweet_count := 1; reply_count := 2;
               quote_count := 2 |} _ _ _ _ _ _ _ _);
    cbn; lia.
Defined.

(** Every column of a posted row but its engagement score. *)
Definition without_score (r : posted_row) : Z * Z * str * str * Z * str :=
  (pc_id r, pc_project_id r, pc_content r, tweet_id r, posted_date r,
   pc_content_type r).

Lemma set_engagement_score_frame (id score : Z) (s : store) :
  map without_score (posted_content (set_engagement_score id score s))
  = map without_score (posted_content s).
Proof.
  unfold set_engagement_score. cbn [posted_content]. rewrite map_map.
  apply map_ext. intros r. now destruct (pc_id r =? id).
Qed.

Lemma set_engagement_score_other (id score : Z) (s : store) (r : posted_row) :
  In r (posted_content s) -> pc_id r <> id ->
  In r (posted_content (set_engagement_score id score s)).
Proof.
  intros Hin Hne. unfold set_engagement_score. cbn [posted_content].
  apply in_map_iff. exists r. split; [|exact Hin].
  replace (pc_id r =? id) with false by (symmetry; now apply Z.eqb_neq).
  reflexivity.
Qed.

Section Refresh.

Variable get_tweet_stats : str -> option tweet_stats.

Lemma refresh_scores_frame (rows : list posted_row) :
  forall s,
    projects (refresh_scores get_tweet_stats rows s) = projects s
    /\ content_queue (refresh_scores get_tweet_stats rows s) = content_queue s
    /\ map without_score (posted_content (refresh_scores get_tweet_stats rows s))
       = map without_score (posted_content s)
    /\ forall pid,
         posted_rows_of (refresh_scores get_tweet_stats rows s) pid
         = posted_rows_of s pid.
Proof.
  induction rows as [|row rows IH]; intros s; cbn [refresh_scores].
  - repeat split.
  - destruct (get_tweet_stats (tweet_id row)) as [stats|]; [|apply IH].
    destruct (IH (set_engagement_score (pc_id row)
                    (engagement_score_of stats) s))
      as (Hp & Hq & Hrows & Hcount).
    repeat split.
    + now rewrite Hp.
    + now rewrite Hq.
    + now rewrite Hrows, set_engagement_score_frame.
    + intros pid. now rewrite Hcount, posted_rows_set_engagement.
Qed.

Lemma refresh_scores_other (rows : list posted_row) :
  forall s r,
    In r (posted_content s) ->
    (forall row, In row rows -> pc_id row <> pc_id r) ->
    In r (posted_content (refresh_scores get_tweet_stats rows s)).
Proof.
  induction rows as [|row rows IH]; intros s r Hin Hother;
    cbn [refresh_scores]; [exact Hin|].
  assert (Hrest : forall row', In row' rows -> pc_id row' <> pc_id r)
    by (intros row' Hrow'; apply Hother; now right).
  destruct (get_tweet_stats (tweet_id row)) as [stats|]; [|now apply IH].
  apply IH; [|exact Hrest].
  apply set_engagement_score_other; [exact Hin|].
  intros Heq. apply (Hother row (or_introl eq_refl)). now symmetry.
Qed.

Lemma firstn_In {A : Type} (n : nat) (l : list A) (x : A) :
  In x (firstn n l) -> In x l.
Proof.
  intros Hin. rewrite <- (firstn_skipn n l). apply in_or_app. now left.
Qed.

Lemma recent_tweets_in (now : timestamp) (s : store) (row : posted_row) :
  In row (recent_tweets now s) ->
  In row (posted_content s) /\ now - 7 * DAY < posted_date row.
Proof.
  unfold recent_tweets. intros Hin. apply firstn_In in Hin.
  apply order_by_in, filter_In in Hin as [Hin Hrecent].
  split; [exact Hin | now apply Z.ltb_lt].
Qed.

Lemma NoDup_map_inj {A : Type} (f : A -> Z) (l : list A) (a b : A) :
  NoDup (map f l) -> In a l -> In b l -> f a = f b -> a = b.
Proof.
  induction l as [|x l IH]; intros Hnd Ha Hb Heq; [destruct Ha|].
  cbn [map] in Hnd. inversion Hnd as [|? ? Hnotin Hrest]; subst.
  destruct Ha as [->|Ha], Hb as [->|Hb]; try reflexivity.
  - exfalso. apply Hnotin. rewrite Heq. now apply in_map.
  - exfalso. apply Hnotin. rewrite <- Heq. now apply in_map.
  - now apply IH.
Qed.

(** X25.  The refresh of engagement scores touches nothing but scores: the
    projects, the queue and every other column of every posted row stay as
    they are, so each project keeps its number of posted rows; and with
    unique row identifiers, a row posted 7 days ago or earlier keeps its
    score too. *)
Theorem engagement_refresh_frame (now : timestamp) (s : store) :
  let s' := _update_engagement_scores get_tweet_stats now s in
  projects s' = projects s
  /\ content_queue s' = content_queue s
  /\ map without_score (posted_content s')
     = map without_score (posted_content s)
  /\ (forall pid, posted_rows_of s' pid = posted_rows_of s pid)
  /\ (NoDup (map pc_id (posted_content s)) ->
      forall r, In r (posted_content s) ->
                posted_date r <= now - 7 * DAY ->
                In r (posted_content s')).
Proof.
  cbn zeta. unfold _update_engagement_scores.
  destruct (refresh_scores_frame (recent_tweets now s) s)
    as (Hp & Hq & Hrows & Hcount).
  repeat split; try assumption.
  intros Hnd r Hin Hold. apply refresh_scores_other; [exact Hin|].
  intros row Hrow Heq. apply recent_tweets_in in Hrow as [Hrow Hrecent].
  assert (row = r) by (now apply (NoDup_map_inj pc_id (posted_content s))).
  subst row. lia.
Qed.

Variable clock : nat -> timestamp.

(** X26.  After the weekly maintenance no posted row is older than 90
    days at the time of the purge; the rows that are not older survive with
    every column but the score unchanged and in their order; and the gate,
    the projects and the queue are as before. *)
Theorem weekly_maintenance_effect (w : world) :
  let w' := _weekly_maintenance clock get_tweet_stats w in
  let cutoff := clock (tick w) - 90 * DAY in
  gate w' = gate w
  /\ submitted w' = submitted w
  /\ projects (db w') = projects (db w)
  /\ content_queue (db w') = content_queue (db w)
  /\ map without_score (posted_content (db w'))
     = map without_score
         (filter (fun r => negb (posted_date r <? cutoff))
            (posted_content (db w)))
  /\ (forall r, In r (posted_content (db w')) -> cutoff <= posted_date r).
Proof.
  cbn zeta. unfold _weekly_maintenance. cbn [gate submitted db].
  unfold _update_engagement_scores.
  destruct (refresh_scores_frame
              (recent_tweets (clock (S (tick w)))
                 (purge_old_posted (clock (tick w)) (db w)))
              (purge_old_posted (clock (tick w)) (db w)))
    as (Hp & Hq & Hrows & _).
  split; [reflexivity|]. split; [reflexivity|].
  split; [exact Hp|]. split; [exact Hq|]. split; [exact Hrows|].
  intros r Hin.
  apply (in_map without_score) in Hin. rewrite Hrows in Hin.
  apply in_map_iff in Hin as (r0 & Heq & Hin0).
  cbn [purge_old_posted posted_content] in Hin0.
  apply filter_In in Hin0 as [_ Hkeep].
  apply negb_true_iff, Z.ltb_ge in Hkeep.
  unfold without_score in Heq. injection Heq as _ _ _ _ Hdate _.
  lia.
Qed.

End Refresh.

Section Jobs.

Variable clock : nat -> timestamp.
Variable model : project -> list str -> ContentGenerator.model_outcome.
Variable posting_delay_minutes : nat -> Z.

Lemma purge_stale_queue_in (now : timestamp) (s : store) (q : queue_row) :
  In q (content_queue (purge_stale_queue now s)) <->
  In q (content_queue s)
  /\ ~ (status q = pending /\ created_date q < now - DAY).
Proof.
  unfold purge_stale_queue. cbn [content_queue].
  rewrite filter_In, negb_true_iff, andb_false_iff.
  split; intros [Hin H]; (split; [exact Hin|]).
  - intros [Hst Hold]. destruct H as [H|H].
    + apply str_eqb_eq in Hst. congruence.
    + apply Z.ltb_ge in H. lia.
  - destruct (str_eqb (status q) pending) eqn:Hst; [|now left].
    right. apply Z.ltb_ge.
    destruct (Z.lt_ge_cases (created_date q) (now - DAY)) as [Hlt|Hge];
      [|lia].
    exfalso. apply H. split; [now apply str_eqb_eq | exact Hlt].
Qed.

(** X27.  The daily reset brings the counter to 0, so that a check on the
    day of the reset passes, and it sweeps the queue: a pending row created
    more than 24 hours before the sweep is gone, every other row is kept,
    and projects and posted rows are not touched. *)
Theorem daily_reset_effect (w : world) :
  reachable (gate w) ->
  let w' := _daily_reset clock w in
  reachable (gate w')
  /\ daily_post_count (gate w') = 0
  /\ fst (_can_post_today (date_of (clock (tick w))) (gate w')) = true
  /\ projects (db w') = projects (db w)
  /\ posted_content (db w') = posted_content (db w)
  /\ (forall q,
        In q (content_queue (db w')) <->
        In q (content_queue (db w))
        /\ ~ (status q = pending
              /\ created_date q < clock (S (tick w)) - DAY)).
Proof.
  intros Hw. cbn zeta. unfold _daily_reset. cbn [gate db].
  split; [now apply R_reset|]. split; [reflexivity|].
  split; [|split; [reflexivity | split; [reflexivity|]]].
  - unfold _can_post_today, roll_over, _daily_reset_counters.
    cbn [last_post_date same_date]. rewrite Z.eqb_refl.
    cbn [fst daily_post_count max_posts_per_day].
    apply Z.ltb_lt. apply reachable_bounds in Hw. lia.
  - intros q. apply purge_stale_queue_in.
Qed.

Lemma generate_content_floor (r : ContentGenerator.model_outcome)
    (content : str) :
  ContentGenerator.generate_content r = Some content ->
  (50 <= length content)%nat.
Proof.
  destruct r as [| |text]; cbn [ContentGenerator.generate_content];
    try discriminate.
  destruct text as [|c text]; [discriminate|].
  unfold ContentGenerator._clean_and_validate_content.
  destruct (ContentGenerator.validated_of (c :: text)) as [|t rest] eqn:Hv;
    [discriminate|].
  pose proof (ContentGeneratorProperties.validated_of_floor (c :: text))
    as Hfloor.
  rewrite Hv in Hfloor.
  pose proof (ContentGeneratorProperties.output_segments_floor (t :: rest)
                Hfloor) as Hsegs.
  pose proof (ContentGeneratorProperties.output_segments_length (t :: rest))
    as Hcount.
  remember (ContentGenerator.output_segments (t :: rest)) as segments.
  intros Hsome. injection Hsome as <-.
  destruct segments as [|seg segs]; [discriminate|].
  inversion Hsegs; subst.
  pose proof (ContentGeneratorProperties.join_length_first [NL; NL] seg segs).
  lia.
Qed.

Lemma reschedule_old_rows (t nid : Z) (queue : list queue_row) :
  Forall (fun q => cq_id q < nid) queue ->
  map (fun q =>
         if cq_id q =? nid
         then {| cq_id := cq_id q; cq_project_id := cq_project_id q;
                 cq_content := cq_content q;
                 cq_content_type := cq_content_type q;
                 scheduled_time := t; status := status q;
                 created_date := created_date q |}
         else q) queue
  = queue.
Proof.
  induction 1 as [|q queue Hq _ IH]; cbn [map]; [reflexivity|].
  replace (cq_id q =? nid) with false by (symmetry; apply Z.eqb_neq; lia).
  now rewrite IH.
Qed.

(** X28.  One generation tick leaves projects, posted rows and the
    publisher alone and, on a store whose queue identifiers are below the
    next one, either leaves the queue as it is or appends exactly one row.
    With the daily cap reached the store does not change at all.  An
    appended row belongs to an active project of the catalog, carries the
    fresh identifier, is pending, holds at least 50 characters, and is
    scheduled between 1 and 5 minutes after a reading of the clock. *)
Theorem generate_and_queue_effect (w : world) :
  Forall (fun q => cq_id q < next_queue_id (db w)) (content_queue (db w)) ->
  (forall n, 1 <= posting_delay_minutes n <= 5) ->
  let w' := _generate_and_queue_content clock model posting_delay_minutes w in
  projects (db w') = projects (db w)
  /\ posted_content (db w') = posted_content (db w)
  /\ submitted w' = submitted w
  /\ (fst (check_gate clock w) = false -> db w' = db w)
  /\ (content_queue (db w') = content_queue (db w)
      \/ exists row project n,
           content_queue (db w') = content_queue (db w) ++ [row]
           /\ fst (check_gate clock w) = true
           /\ In project (projects (db w))
           /\ is_active project = true
           /\ cq_project_id row = p_id project
           /\ cq_id row = next_queue_id (db w)
           /\ status row = pending
           /\ (50 <= length (cq_content row))%nat
           /\ clock n + 60 <= scheduled_time row <= clock n + 300).
Proof.
  intros Hids Hdelay. cbn zeta.
  unfold _generate_and_queue_content, check_gate.
  cbn [_can_post_today].
  set (c1 := roll_over (date_of (clock (tick w))) (gate w)).
  destruct (daily_post_count c1 <? max_posts_per_day c1) eqn:Hok;
    cbn [fst gate db tick submitted].
  2: { repeat split; try reflexivity. now left. }
  destruct (get_next_project_to_post (clock (S (tick w))) (db w))
    as [project|] eqn:Hnext; cbn [gate db tick submitted].
  2: { repeat split; try reflexivity; try discriminate. now left. }
  destruct (ContentGenerator.generate_content
              (model project
                 (get_recent_content_for_project (clock (S (S (tick w))))
                    (p_id project) 7 (db w))))
    as [[|ch content]|] eqn:Hgen; cbn [gate db tick submitted].
  1, 3: repeat split; try reflexivity; try discriminate; now left.
  cbn [save_generated_content set_scheduled_time projects posted_content
       content_queue db].
  split; [reflexivity|]. split; [reflexivity|]. split; [reflexivity|].
  split; [discriminate|]. right.
  rewrite map_app, (reschedule_old_rows _ _ _ Hids). cbn [map cq_id].
  rewrite Z.eqb_refl.
  eexists. exists project, (S (S (S (tick w)))).
  split; [reflexivity|]. split; [reflexivity|].
  apply get_next_some in Hnext as (Hin & Hel & _).
  apply eligible_spec in Hel as [Hact _].
  apply generate_content_floor in Hgen.
  cbn [cq_project_id cq_id status cq_content scheduled_time].
  repeat split; try assumption; try reflexivity.
  - specialize (Hdelay (S (tick w))). lia.
  - specialize (Hdelay (S (tick w))). lia.
Qed.

End Jobs.

Lemma daily_reset_effect_witness :
  reachable after_two_posts
  /\ daily_post_count
       (gate (_daily_reset QueueDrainFacts.day5
                {| gate := after_two_posts; db := queued; tick := 0;
                   submitted := [] |})) = 0.
Proof.
  split; [exact after_two_posts_reachable|].
  exact (proj1 (proj2
    (daily_reset_effect QueueDrainFacts.day5
       {| gate := after_two_posts; db := queued; tick := 0; submitted := [] |}
       after_two_posts_reachable))).
Defined.

(** A model that answers every prompt with sixty letters, and a delay of
    three minutes. *)
Definition sixty_letters (p : project) (recent : list str)
  : ContentGenerator.model_outcome :=
  ContentGenerator.ModelText ContentGeneratorProperties.short_answer.

Lemma generate_and_queue_effect_witness :
  Forall (fun q => cq_id q < next_queue_id one_subject)
    (content_queue one_subject)
  /\ projects
       (db (_generate_and_queue_content QueueDrainFacts.day5 sixty_letters
              (fun _ => 3)
              {| gate := init; db := one_subject; tick := 0; submitted := [] |}))
     = projects one_subject.
Proof.
  assert (H : Forall (fun q => cq_id q < next_queue_id one_subject)
                (content_queue one_subject)) by constructor.
  split; [exact H|].
  refine (proj1
    (generate_and_queue_effect QueueDrainFacts.day5 sixty_letters (fun _ => 3)
       {| gate := init; db := one_subject; tick := 0; submitted := [] |}
       H _)).
  intros n. lia.
Defined.

End SchedulerJobsProperties.

(* ================================================================== *)
(** * What a queue pass leaves alone *)
(* ================================================================== *)

Module QueuePassProperties.

Import Database Scheduler DatabaseProperties.

Section Pass.

Variable clock : nat -> timestamp.
Variable post_content : list str -> str -> option str.




End Pass.

End QueuePassProperties.

(* ================================================================== *)
(** * [clean_text] *)
(* ================================================================== *)

Module CleanTextProperties.

Import Utils ThreadRoundTrip.

(** The five characters that [clean_text] replaces. *)
Definition typographic (c : char) : bool :=
  existsb (N.eqb c) [8217; 8220; 8221; 8211; 8212]%N.

(** A text whose only whitespace is single spaces between other
    characters.  [after_space] tells that the character before is a space
    or that the text starts here. *)
Fixpoint single_spaced (after_space : bool) (s : str) : Prop :=
  match s with
  | [] => after_space = false
  | c :: rest =>
      if isspace c
      then c = 32%N /\ after_space = false /\ single_spaced true rest
      else single_spaced false rest
  end.

Definition ends_ok (in_run : bool) (s : str) : Prop :=
  match s with
  | [] => in_run = false
  | _ => isspace (last s 0%N) = false
  end.

Lemma ends_ok_tail (b b' : bool) (c : char) (rest : str) :
  ends_ok b (c :: rest) -> (rest = [] -> b' = false) -> ends_ok b' rest.
Proof.
  destruct rest as [|c' rest']; cbn [ends_ok]; [auto|].
  intros H _. exact H.
Qed.

Lemma replace_ws_runs_single_spaced (s : str) :
  forall in_run,
    ends_ok in_run s ->
    single_spaced in_run (replace_ws_runs (lit " ") in_run s).
Proof.
  induction s as [|c rest IH]; intros in_run Hends; [exact Hends|].
  cbn [replace_ws_runs]. destruct (isspace c) eqn:Hc.
  - assert (Hrest : ends_ok true rest).
    { apply ends_ok_tail with in_run c; [exact Hends|].
      intros ->. cbn in Hends. congruence. }
    destruct in_run.
    + now apply IH.
    + cbn [lit map list_ascii_of_string app single_spaced].
      change (isspace (N_of_ascii " ")) with true. cbn iota.
      repeat split. now apply IH.
  - cbn [single_spaced]. rewrite Hc. apply IH.
    apply ends_ok_tail with in_run c; [exact Hends | reflexivity].
Qed.

Lemma single_spaced_head (b : bool) (c : char) (rest : str) :
  isspace c = false -> single_spaced b (c :: rest) -> single_spaced true (c :: rest).
Proof. cbn [single_spaced]. now intros ->. Qed.

Lemma lstrip_head (s : str) :
  match lstrip s with [] => True | c :: _ => isspace c = false end.
Proof.
  induction s as [|c rest IH]; [exact I|]. cbn [lstrip].
  destruct (isspace c) eqn:Hc; [exact IH | exact Hc].
Qed.

Lemma lstrip_last (s : str) :
  lstrip s <> [] -> last (lstrip s) 0%N = last s 0%N.
Proof.
  induction s as [|c rest IH]; [reflexivity|]. cbn [lstrip].
  destruct (isspace c); [|reflexivity].
  intros Hne. rewrite (IH Hne).
  destruct rest; [cbn in Hne; congruence | reflexivity].
Qed.

Lemma hd_rev_last (s : str) (c : char) (r : str) :
  rev s = c :: r -> last s 0%N = c.
Proof.
  intros H. apply (f_equal (@rev char)) in H. rewrite rev_involutive in H.
  subst s. cbn [rev]. apply last_last.
Qed.

(** What [strip] leaves has no whitespace at either end. *)
Lemma strip_ends (s : str) :
  match strip s with
  | [] => True
  | c :: r => isspace c = false /\ isspace (last (c :: r) 0%N) = false
  end.
Proof.
  unfold strip, rstrip.
  destruct (rev (lstrip (rev (lstrip s)))) as [|c r] eqn:Hout; [exact I|].
  set (u := lstrip s) in *. set (v := lstrip (rev u)) in *.
  assert (Hv : v <> []) by (intros Hv; rewrite Hv in Hout; discriminate).
  split.
  - (* the first character of the result is the last of [v] *)
    pose proof (hd_rev_last v c r Hout) as Hlast.
    unfold v in Hlast. rewrite lstrip_last in Hlast by exact Hv.
    pose proof (lstrip_head s) as Hu. fold u in Hu.
    destruct u as [|cu ru] eqn:Hueq.
    + cbn in Hv. congruence.
    + assert (Hcu : last (rev (cu :: ru)) 0%N = cu)
        by (cbn [rev]; apply last_last).
      rewrite Hcu in Hlast. subst c. exact Hu.
  - (* the last character of the result is the first of [v] *)
    pose proof (lstrip_head (rev u)) as Hhd. fold v in Hhd.
    destruct v as [|cv rv] eqn:Hveq; [congruence|].
    rewrite <- Hout. cbn [rev]. rewrite last_last. exact Hhd.
Qed.

Lemma replace_char_forall (P : char -> Prop) (old : char) (new s : str) :
  Forall P s -> Forall P new -> Forall P (replace_char old new s).
Proof.
  intros Hs Hnew. unfold replace_char.
  induction Hs as [|c rest Hc _ IH]; cbn [flat_map]; [constructor|].
  apply Forall_app. split; [|exact IH].
  destruct (c =? old)%N; [exact Hnew | now constructor].
Qed.

Lemma replace_char_removes (old : char) (new s : str) :
  Forall (fun c => c <> old) new ->
  Forall (fun c => c <> old) (replace_char old new s).
Proof.
  intros Hnew. unfold replace_char.
  induction s as [|c rest IH]; cbn [flat_map]; [constructor|].
  apply Forall_app. split; [|exact IH].
  destruct (c =? old)%N eqn:Hc; [exact Hnew|].
  constructor; [now apply N.eqb_neq | constructor].
Qed.

Lemma replace_char_absent (old : char) (new s : str) :
  Forall (fun c => c <> old) s -> replace_char old new s = s.
Proof.
  unfold replace_char.
  induction 1 as [|c rest Hc _ IH]; cbn [flat_map]; [reflexivity|].
  replace (c =? old)%N with false by (symmetry; now apply N.eqb_neq).
  cbn [app]. now rewrite IH.
Qed.

Lemma single_spaced_nonspace_app (new rest : str) (b : bool) :
  new <> [] ->
  Forall (fun c => isspace c = false) new ->
  single_spaced false rest ->
  single_spaced b (new ++ rest).
Proof.
  intros Hne Hnew Hrest. revert b.
  induction Hnew as [|c new Hc Hnew IH]; intros b; [congruence|].
  cbn [app single_spaced]. rewrite Hc.
  destruct new as [|c' new']; [exact Hrest|].
  apply IH. discriminate.
Qed.

Lemma replace_char_single_spaced (old : char) (new s : str) :
  isspace old = false ->
  new <> [] ->
  Forall (fun c => isspace c = false) new ->
  forall b, single_spaced b s -> single_spaced b (replace_char old new s).
Proof.
  intros Hold Hne Hnew. unfold replace_char.
  induction s as [|c rest IH]; intros b Hs; [exact Hs|].
  cbn [flat_map]. cbn [single_spaced] in Hs.
  destruct (c =? old)%N eqn:Hc.
  - apply N.eqb_eq in Hc. subst c. rewrite Hold in Hs.
    apply single_spaced_nonspace_app; [exact Hne | exact Hnew | now apply IH].
  - cbn [app single_spaced].
    destruct (isspace c).
    + destruct Hs as (H32 & Hb & Hs). repeat split; try assumption.
      now apply IH.
    + now apply IH.
Qed.

Lemma single_spaced_fixed (s : str) :
  forall b, single_spaced b s -> replace_ws_runs (lit " ") b s = s.
Proof.
  induction s as [|c rest IH]; intros b Hs; [reflexivity|].
  cbn [replace_ws_runs]. cbn [single_spaced] in Hs.
  destruct (isspace c).
  - destruct Hs as (-> & -> & Hs). cbn [lit map list_ascii_of_string app].
    change (N_of_ascii " ") with 32%N. f_equal. now apply IH.
  - f_equal. now apply IH.
Qed.

Lemma single_spaced_last (s : str) :
  forall b, single_spaced b s -> s <> [] -> isspace (last s 0%N) = false.
Proof.
  induction s as [|c rest IH]; intros b Hs Hne; [congruence|].
  cbn [single_spaced] in Hs.
  destruct rest as [|c' rest'].
  - cbn [last]. destruct (isspace c) eqn:Hc; [|reflexivity].
    destruct Hs as (_ & _ & Hs). cbn in Hs. discriminate.
  - change (last (c :: c' :: rest') 0%N) with (last (c' :: rest') 0%N).
    destruct (isspace c).
    + destruct Hs as (_ & _ & Hs). now apply (IH true).
    + now apply (IH false).
Qed.

Lemma clean_text_shape (text : str) :
  (clean_text text = [] \/ single_spaced true (clean_text text))
  /\ Forall (fun c => typographic c = false) (clean_text text).
Proof.
  unfold clean_text. destruct text as [|c0 text0]; [split; [now left | constructor]|].
  set (text := c0 :: text0).
  set (r0 := replace_ws_runs (lit " ") false (strip text)).
  assert (H0 : r0 = [] \/ single_spaced true r0).
  { unfold r0. pose proof (strip_ends text) as Hends.
    destruct (strip text) as [|c r] eqn:Hs; [now left|].
    destruct Hends as [Hc Hlast]. right.
    pose proof (replace_ws_runs_single_spaced (c :: r) false Hlast) as Hsp.
    cbn [replace_ws_runs] in Hsp |- *. rewrite Hc in Hsp |- *.
    cbn [single_spaced] in Hsp |- *. now rewrite Hc in Hsp |- *. }
  split.
  - destruct H0 as [-> | H0]; [now left|]. right.
    repeat (apply replace_char_single_spaced;
            [reflexivity | discriminate | repeat constructor |]).
    exact H0.
  - assert (Hall : forall s,
      Forall (fun c => typographic c = false)
        (replace_char 8212%N (lit "--")
           (replace_char 8211%N (lit "-")
              (replace_char 8221%N [34%N]
                 (replace_char 8220%N [34%N]
                    (replace_char 8217%N (lit "'") s)))))).
    { intros s.
      assert (H1 : Forall (fun c => c <> 8217%N) (replace_char 8217%N (lit "'") s))
        by (apply replace_char_removes; repeat constructor; discriminate).
      assert (H2 : Forall (fun c => c <> 8217%N /\ c <> 8220%N)
                     (replace_char 8220%N [34%N] (replace_char 8217%N (lit "'") s))).
      { apply Forall_and.
        - apply replace_char_forall; [exact H1 | repeat constructor; discriminate].
        - apply replace_char_removes; repeat constructor; discriminate. }
      assert (H3 : Forall (fun c => (c <> 8217%N /\ c <> 8220%N) /\ c <> 8221%N)
                     (replace_char 8221%N [34%N]
                        (replace_char 8220%N [34%N]
                           (replace_char 8217%N (lit "'") s)))).
      { apply Forall_and.
        - apply replace_char_forall; [exact H2|].
          repeat constructor; discriminate.
        - apply replace_char_removes; repeat constructor; discriminate. }
      assert (H4 : Forall (fun c => ((c <> 8217%N /\ c <> 8220%N) /\ c <> 8221%N)
                                    /\ c <> 8211%N)
                     (replace_char 8211%N (lit "-")
                        (replace_char 8221%N [34%N]
                           (replace_char 8220%N [34%N]
                              (replace_char 8217%N (lit "'") s))))).
      { apply Forall_and.
        - apply replace_char_forall; [exact H3|].
          repeat constructor; discriminate.
        - apply replace_char_removes; repeat constructor; discriminate. }
      assert (H5 : Forall (fun c => (((c <> 8217%N /\ c <> 8220%N) /\ c <> 8221%N)
                                     /\ c <> 8211%N) /\ c <> 8212%N)
                     (replace_char 8212%N (lit "--")
                        (replace_char 8211%N (lit "-")
                           (replace_char 8221%N [34%N]
                              (replace_char 8220%N [34%N]
                                 (replace_char 8217%N (lit "'") s)))))).
      { apply Forall_and.
        - apply replace_char_forall; [exact H4|].
          repeat constructor; discriminate.
        - apply replace_char_removes; repeat constructor; discriminate. }
      eapply Forall_impl; [|exact H5].
      intros c ((((Ha & Hb) & Hc) & Hd) & He). unfold typographic.
      cbn [existsb]. 
      repeat (apply orb_false_intro); try reflexivity;
        apply N.eqb_neq; assumption. }
    apply Hall.
Qed.

(** X30.  What [clean_text] returns contains none of the five typographic
    characters it replaces, its only whitespace is single spaces between
    other characters, and cleaning it again returns it unchanged. *)
Theorem clean_text_normal_form (text : str) :
  Forall (fun c => typographic c = false) (clean_text text)
  /\ (clean_text text = [] \/ single_spaced true (clean_text text))
  /\ clean_text (clean_text text) = clean_text text.
Proof.
  destruct (clean_text_shape text) as [Hshape Htypo].
  split; [exact Htypo|]. split; [exact Hshape|].
  set (r := clean_text text) in *.
  destruct Hshape as [-> | Hsp]; [reflexivity|].
  destruct r as [|c rest] eqn:Hr; [reflexivity|].
  unfold clean_text.
  assert (Hc : isspace c = false).
  { cbn [single_spaced] in Hsp. destruct (isspace c); [|reflexivity].
    destruct Hsp as (_ & Hfalse & _). discriminate. }
  rewrite strip_tidy;
    [| exists c, rest; now split
     | now apply (single_spaced_last (c :: rest) true)].
  assert (Hsp' : single_spaced false (c :: rest))
    by (cbn [single_spaced] in *; now rewrite Hc in *).
  rewrite (single_spaced_fixed (c :: rest) false Hsp').
  assert (Hno : forall k, typographic k = true ->
                 Forall (fun x => x <> k) (c :: rest)).
  { intros k Hk. eapply Forall_impl; [|exact Htypo].
    intros x Hx Heq. subst x. congruence. }
  cbn zeta.
  rewrite (replace_char_absent 8217%N _ (c :: rest)) by (apply Hno; reflexivity).
  rewrite (replace_char_absent 8220%N _ (c :: rest)) by (apply Hno; reflexivity).
  rewrite (replace_char_absent 8221%N _ (c :: rest)) by (apply Hno; reflexivity).
  rewrite (replace_char_absent 8211%N _ (c :: rest)) by (apply Hno; reflexivity).
  rewrite (replace_char_absent 8212%N _ (c :: rest)) by (apply Hno; reflexivity).
  reflexivity.
Qed.

End CleanTextProperties.
